(** * lkml: the backtracking recursive-descent parser of [lkml/parser.py]

    A shallow embedding of the [Parser] class: the cursor ([index], [mark]),
    the [backtrack_if_none] decorator, the stream primitives and the seven
    grammar matchers, followed by the properties of the parser that the
    specification states. *)

From Stdlib Require Import List String Arith Lia Bool ZArith Sorted.
Import ListNotations.

Set Implicit Arguments.
Set Warnings "-register-all".

(** ** Tokens *)

(** Modelled from the spec: the token classes of the module [lkml.tokens],
    which the parser imports and which is not part of the sources at hand.
    The specification gives the closed set of kinds; the constructor names
    are the class names [parser.py] refers to. *)
Inductive TokenType : Type :=
| StreamStartToken
| StreamEndToken
| LiteralToken
| QuotedLiteralToken
| ValueToken
| BlockStartToken
| BlockEndToken
| ListStartToken
| ListEndToken
| CommaToken
| SqlEndToken.

(** Modelled from the spec: a token instance. Literal and QuotedLiteral
    tokens carry a string payload, all the others carry none. *)
Inductive Token : Type :=
| StreamStart
| StreamEnd
| Literal (value : string)
| QuotedLiteral (value : string)
| Value
| BlockStart
| BlockEnd
| ListStart
| ListEnd
| Comma
| SqlEnd.

(** [type(token)] *)
Definition type_of (t : Token) : TokenType :=
  match t with
  | StreamStart => StreamStartToken
  | StreamEnd => StreamEndToken
  | Literal _ => LiteralToken
  | QuotedLiteral _ => QuotedLiteralToken
  | Value => ValueToken
  | BlockStart => BlockStartToken
  | BlockEnd => BlockEndToken
  | ListStart => ListStartToken
  | ListEnd => ListEndToken
  | Comma => CommaToken
  | SqlEnd => SqlEndToken
  end.

Definition TokenType_eq_dec (a b : TokenType) : {a = b} + {a <> b}.
Proof. decide equality. Defined.

Definition TokenType_eqb (a b : TokenType) : bool :=
  if TokenType_eq_dec a b then true else false.

(** [token.value]: present on the two content tokens only. *)
Definition token_value (t : Token) : option string :=
  match t with
  | Literal v | QuotedLiteral v => Some v
  | _ => None
  end.

(** The elements a caller may put in the sequence handed to the constructor:
    tokens, or any other Python value. *)
Inductive PyObject : Type :=
| PyToken (t : Token)
| PyStr (s : string)
| PyInt (z : Z)
| PyNone.

(** [isinstance(o, tokens.Token)] *)
Definition isinstance_Token (o : PyObject) : bool :=
  match o with
  | PyToken _ => true
  | _ => false
  end.

(** ** Exceptions *)

Inductive PyError : Type :=
| TypeError                      (* raised by [__init__] and by [check] *)
| Exception (message : string)   (* [raise Exception("Syntax error.")] *)
| IndexError                     (* [self.tokens[self.index]] out of range *)
| UnboundLocalError              (* a local read before any assignment *)
| AttributeError.                (* [.value] on a token without payload *)

(** ** The document tree *)

(** The three single-key dictionaries the matchers build:
    [{key: {"expression": e, "name": n}}], [{key: value}] and [{key: csv}]. *)
Inductive Entry : Type :=
| BlockEntry (key : string) (name : option string) (expression : list Entry)
| PairEntry (key : string) (value : string)
| ListEntry (key : string) (values : list string).

Definition Document : Type := list Entry.

(** ** The parser object *)

(** [self.tokens], [self.index] and [self.mark] ([None] until the first
    [set_mark]). [history] is a ghost field: it logs every value [index] has
    held, most recent first, and no operation reads it. *)
Record Parser : Type := mkParser {
  tokens : list Token;
  index : nat;
  mark : option nat;
  history : list nat
}.

Definition with_index (s : Parser) (i : nat) : Parser :=
  {| tokens := tokens s; index := i; mark := mark s;
     history := i :: history s |}.

Definition with_mark (s : Parser) (m : nat) : Parser :=
  {| tokens := tokens s; index := index s; mark := Some m;
     history := history s |}.

(** ** Computations on the parser: state, exceptions and fuel *)

Inductive Outcome (A : Type) : Type :=
| Return (a : A) (s : Parser)
| Raise (e : PyError) (s : Parser)
| OutOfFuel (s : Parser).

Arguments Raise {A} e s.
Arguments OutOfFuel {A} s.

Definition M (A : Type) : Type := Parser -> Outcome A.

Definition ret {A} (a : A) : M A := fun s => Return a s.

Definition raise {A} (e : PyError) : M A := fun s => Raise e s.

Definition out_of_fuel {A} : M A := fun s => OutOfFuel s.

Definition bind {A B} (m : M A) (k : A -> M B) : M B :=
  fun s =>
    match m s with
    | Return a s' => k a s'
    | Raise e s' => Raise e s'
    | OutOfFuel s' => OutOfFuel s'
    end.

Declare Scope parser_scope.
Delimit Scope parser_scope with parser.
Notation "x <- m ;; k" := (bind m (fun x => k))
  (at level 61, m at next level, right associativity) : parser_scope.
Notation "m ;; k" := (bind m (fun _ => k))
  (at level 61, right associativity) : parser_scope.
Open Scope parser_scope.

(** The state an outcome ends in, and the outcome without its state. *)
Definition final {A} (o : Outcome A) : Parser :=
  match o with
  | Return _ s | Raise _ s | OutOfFuel s => s
  end.

Inductive Result (A : Type) : Type :=
| Returned (a : A)
| Raised (e : PyError)
| Unfinished.

Arguments Raised {A} e.
Arguments Unfinished {A}.

Definition result {A} (o : Outcome A) : Result A :=
  match o with
  | Return a _ => Returned a
  | Raise e _ => Raised e
  | OutOfFuel _ => Unfinished
  end.

(** ** Construction *)

(** The state [__init__] leaves behind once the stream is accepted. *)
Definition new_parser (stream : list Token) : Parser :=
  {| tokens := stream; index := 0; mark := None; history := [0] |}.

(** The loop of [__init__]: the first element that is not a token raises. *)
Fixpoint validate (stream : list PyObject) : PyError + list Token :=
  match stream with
  | [] => inr []
  | PyToken t :: rest =>
      match validate rest with
      | inr ts => inr (t :: ts)
      | inl e => inl e
      end
  | _ :: _ => inl TypeError
  end.

Definition Parser_init (stream : list PyObject) : PyError + Parser :=
  match validate stream with
  | inr ts => inr (new_parser ts)
  | inl e => inl e
  end.

(** ** Cursor primitives *)

Definition set_mark : M unit :=
  fun s => Return tt (with_mark s (index s)).

(** [self.index = self.mark]. With [mark] still [None] Python would store
    [None] in [index] and the next subscript would raise [TypeError]; the
    decorator always sets the mark first. *)
Definition jump_to_mark : M unit :=
  fun s =>
    match mark s with
    | Some m => Return tt (with_index s m)
    | None => Raise TypeError s
    end.

Definition backtrack_if_none {A} (method : M (option A)) : M (option A) :=
  set_mark ;;
  r <- method ;;
  match r with
  | None => jump_to_mark ;; ret None
  | Some _ => ret r
  end.

(** [self.tokens[self.index]] *)
Definition peek : M Token :=
  fun s =>
    match nth_error (tokens s) (index s) with
    | Some t => Return t s
    | None => Raise IndexError s
    end.

(** [advance] reads [self.tokens[self.index]] for its log line before it
    moves the cursor. *)
Definition advance : M unit :=
  _ <- peek ;;
  fun s => Return tt (with_index s (index s + 1)).

Definition consume : M Token :=
  token <- peek ;;
  advance ;;
  ret token.

Definition consume_token_value : M string :=
  token <- consume ;;
  match token_value token with
  | Some v => ret v
  | None => raise AttributeError
  end.

(** [check]: every call site passes token classes, so the [issubclass]
    guard never fires; the test is on the exact type of the peeked token. *)
Definition check (token_types : list TokenType) : M bool :=
  t <- peek ;;
  ret (existsb (TokenType_eqb (type_of t)) token_types).

(** ** The primitives in full: [peek] with a length, [check] on any class *)

(** [peek(length)]: a slice of the tokens when [length > 1], the token
    under the cursor otherwise. *)
Definition peek_length (length : Z) : M (Token + list Token) :=
  fun s =>
    if (1 <? length)%Z
    then Return (inr (firstn (Z.to_nat length) (skipn (index s) (tokens s)))) s
    else match peek s with
         | Return t s' => Return (inl t) s'
         | Raise err s' => Raise err s'
         | OutOfFuel s' => OutOfFuel s'
         end.

(** What [check] may be handed as a token type: a token class, the base
    class [Token], or a class that is no subclass of [Token]. *)
Inductive PyClass : Type :=
| TokenSubclass (t : TokenType)
| TokenBase
| NotATokenClass.

(** [issubclass(c, tokens.Token)] *)
Definition issubclass_Token (c : PyClass) : bool :=
  match c with
  | NotATokenClass => false
  | _ => true
  end.

(** [type(token) == c] *)
Definition is_type_of (t : Token) (c : PyClass) : bool :=
  match c with
  | TokenSubclass ty => TokenType_eqb (type_of t) ty
  | _ => false
  end.

(** [check] as written: it peeks for its log line, rejects a class that is
    no subclass of [Token], then tests the exact type of the peeked
    token. *)
Definition check_classes (token_types : list PyClass) : M bool :=
  t <- peek ;;
  if forallb issubclass_Token token_types
  then ret (existsb (is_type_of t) token_types)
  else raise TypeError.

(** ** The matchers *)

Definition parse_key : M (option string) :=
  backtrack_if_none (
    is_literal <- check [LiteralToken] ;;
    if is_literal then
      value <- consume_token_value ;;
      is_colon <- check [ValueToken] ;;
      if is_colon then advance ;; ret (Some value)
      else ret None
    else ret None).

Definition parse_value : M (option string) :=
  backtrack_if_none (
    is_quoted <- check [QuotedLiteralToken] ;;
    if is_quoted then
      value <- consume_token_value ;;
      ret (Some value)
    else
      is_literal <- check [LiteralToken] ;;
      if is_literal then
        value <- consume_token_value ;;
        is_sql_end <- check [SqlEndToken] ;;
        (if is_sql_end then advance else ret tt) ;;
        ret (Some value)
      else ret None).

Definition parse_pair : M (option Entry) :=
  backtrack_if_none (
    key <- parse_key ;;
    match key with
    | None => ret None
    | Some key =>
        value <- parse_value ;;
        match value with
        | None => ret None
        | Some value => ret (Some (PairEntry key value))
        end
    end).

(** One csv element: a literal or a quoted literal, else no match. *)
Definition csv_value : M (option string) :=
  is_literal <- check [LiteralToken] ;;
  if is_literal then v <- consume_token_value ;; ret (Some v)
  else
    is_quoted <- check [QuotedLiteralToken] ;;
    if is_quoted then v <- consume_token_value ;; ret (Some v)
    else ret None.

(** The [while not self.check(tokens.ListEndToken)] loop of [parse_csv]. *)
Fixpoint csv_loop (fuel : nat) (values : list string)
  : M (option (list string)) :=
  match fuel with
  | O => out_of_fuel
  | S fuel' =>
      at_end <- check [ListEndToken] ;;
      if at_end then ret (Some values)
      else
        is_comma <- check [CommaToken] ;;
        if is_comma then
          advance ;;
          v <- csv_value ;;
          match v with
          | Some v => csv_loop fuel' (values ++ [v])
          | None => ret None
          end
        else ret None
  end.

Definition parse_csv (fuel : nat) : M (option (list string)) :=
  backtrack_if_none (
    v <- csv_value ;;
    match v with
    | Some v => csv_loop fuel [v]
    | None => ret None
    end).

Definition parse_list (fuel : nat) : M (option Entry) :=
  backtrack_if_none (
    key <- parse_key ;;
    match key with
    | None => ret None
    | Some key =>
        is_literal <- check [LiteralToken] ;;
        (if is_literal then consume_token_value ;; ret tt else ret tt) ;;
        is_open <- check [ListStartToken] ;;
        if is_open then
          advance ;;
          csv <- parse_csv fuel ;;
          match csv with
          | None => ret None
          | Some csv =>
              is_close <- check [ListEndToken] ;;
              if is_close then advance ;; ret (Some (ListEntry key csv))
              else ret None
          end
        else ret None
    end).

(** [if literal:] is a truthiness test: an empty name is not attached. *)
Definition truthy (s : string) : bool :=
  match s with
  | EmptyString => false
  | _ => true
  end.

(** [parse_expression], its [while] loop and [parse_block]. The local
    [literal] of [parse_block] is an [option]: [None] while it is unbound. *)
Fixpoint parse_expression (fuel : nat) : M (option Document) :=
  match fuel with
  | O => out_of_fuel
  | S fuel' =>
      backtrack_if_none (
        is_start <- check [StreamStartToken] ;;
        (if is_start then advance else ret tt) ;;
        expression_loop fuel' [])
  end
with expression_loop (fuel : nat) (expression : Document)
  : M (option Document) :=
  match fuel with
  | O => out_of_fuel
  | S fuel' =>
      stop <- check [StreamEndToken; BlockEndToken] ;;
      if stop then ret (Some expression)
      else
        block <- parse_block fuel' ;;
        match block with
        | Some block => expression_loop fuel' (expression ++ [block])
        | None =>
            pair' <- parse_pair ;;
            match pair' with
            | Some pair' => expression_loop fuel' (expression ++ [pair'])
            | None =>
                list' <- parse_list fuel' ;;
                match list' with
                | Some list' => expression_loop fuel' (expression ++ [list'])
                | None => raise (Exception "Syntax error.")
                end
            end
        end
  end
with parse_block (fuel : nat) : M (option Entry) :=
  match fuel with
  | O => out_of_fuel
  | S fuel' =>
      backtrack_if_none (
        key <- parse_key ;;
        match key with
        | None => ret None
        | Some key =>
            is_literal <- check [LiteralToken] ;;
            literal <- (if is_literal
                        then v <- consume_token_value ;; ret (Some v)
                        else ret None) ;;
            is_open <- check [BlockStartToken] ;;
            if is_open then
              advance ;;
              expression <- parse_expression fuel' ;;
              match expression with
              | None => ret None
              | Some expression =>
                  is_close <- check [BlockEndToken] ;;
                  if is_close then
                    advance ;;
                    match literal with
                    | None => raise UnboundLocalError
                    | Some l =>
                        ret (Some (BlockEntry key
                                     (if truthy l then Some l else None)
                                     expression))
                    end
                  else ret None
              end
            else ret None
        end)
  end.

(** [Parser.parse]: the fuel is what a stream of that length can use, so
    the run is never cut short (see [expression_spec]). *)
Definition parse (self : Parser) : Outcome (option Document) :=
  parse_expression (2 + List.length (tokens self)) self.

(** Construct a parser on a token stream and parse it. *)
Definition parse_tokens (stream : list Token) : Result (option Document) :=
  result (parse (new_parser stream)).

(** * Vocabulary of the properties *)

(** ** Invariants of the cursor *)

(** [m] maintains [I], whatever its outcome. *)
Definition preserves {A} (I : Parser -> Prop) (m : M A) : Prop :=
  forall s, I s -> I (final (m s)).

(** [I] is maintained by the three writes to the parser object: [set_mark],
    [jump_to_mark], and [advance] at an in-bounds position. *)
Definition cursor_invariant (I : Parser -> Prop) : Prop :=
  (forall s, I s -> I (with_mark s (index s)))
  /\ (forall s m, I s -> mark s = Some m -> I (with_index s m))
  /\ (forall s, I s -> index s < List.length (tokens s) ->
                I (with_index s (index s + 1))).

(** The token sequence is never written. *)
Definition same_tokens (ts : list Token) (s : Parser) : Prop :=
  tokens s = ts.

(** The cursor, the mark and every value the cursor has held are at most
    the length of the stream, and [history] does log the cursor. *)
Definition in_bounds (s : Parser) : Prop :=
  index s <= List.length (tokens s)
  /\ (forall m, mark s = Some m -> m <= List.length (tokens s))
  /\ Forall (fun i => i <= List.length (tokens s)) (history s)
  /\ hd_error (history s) = Some (index s).

(** The cursor and the mark are at or after position [i]. *)
Definition from (i : nat) (s : Parser) : Prop :=
  i <= index s /\ (forall m, mark s = Some m -> i <= m).

(** Whatever the outcome of [m], the tokens are those it started with and
    the cursor is at or after the position it started at. *)
Definition framed {A} (m : M A) : Prop :=
  forall s,
    tokens (final (m s)) = tokens s /\ index s <= index (final (m s)).

(** The number of tokens from the cursor to the end of the stream. *)
Definition remaining (s : Parser) : nat :=
  List.length (tokens s) - index s.

(** ** Keys of a document and their place in the stream *)

(** A key production, [literal ':'], sits at position [p] of [ts]. *)
Definition key_at (ts : list Token) (p : nat) (k : string) : Prop :=
  nth_error ts p = Some (Literal k) /\ nth_error ts (p + 1) = Some Value.

(** The keys of a document in document order, nested documents included
    (each block's key, then the keys of its expression). *)
Fixpoint entry_keys (e : Entry) : list string :=
  match e with
  | BlockEntry k _ d => k :: flat_map entry_keys d
  | PairEntry k _ => [k]
  | ListEntry k _ => [k]
  end.

Definition document_keys (d : Document) : list string :=
  flat_map entry_keys d.

(** [located ts lo hi d]: the keys of [d], in document order, are the
    literals of key productions found at strictly increasing positions of
    [ts], all within [[lo, hi)]. *)
Definition located (ts : list Token) (lo hi : nat) (d : Document) : Prop :=
  lo <= hi
  /\ exists ps,
      Forall2 (key_at ts) ps (document_keys d)
      /\ StronglySorted lt ps
      /\ Forall (fun p => lo <= p < hi) ps.

(** The entries of a document in document order, nested documents
    included (each block, then the entries of its expression). *)
Fixpoint entry_entries (e : Entry) : list Entry :=
  e :: match e with
       | BlockEntry _ _ d => flat_map entry_entries d
       | _ => []
       end.

Definition document_entries (d : Document) : list Entry :=
  flat_map entry_entries d.

(** Entry [e] is read off position [p] of [ts]: its key production sits
    there, followed by its value (a pair), by its name literal and
    [BlockStart] (a block, whose name is the payload of that literal unless
    it is empty), or by [ListStart], behind a name literal or not (a
    list). *)
Definition entry_at (ts : list Token) (p : nat) (e : Entry) : Prop :=
  match e with
  | PairEntry k v =>
      key_at ts p k
      /\ (nth_error ts (p + 2) = Some (QuotedLiteral v)
          \/ nth_error ts (p + 2) = Some (Literal v))
  | BlockEntry k name _ =>
      key_at ts p k
      /\ exists l,
          nth_error ts (p + 2) = Some (Literal l)
          /\ name = (if truthy l then Some l else None)
          /\ nth_error ts (p + 3) = Some BlockStart
  | ListEntry k _ =>
      key_at ts p k
      /\ (nth_error ts (p + 2) = Some ListStart
          \/ nth_error ts (p + 3) = Some ListStart)
  end.

(** Whether a List entry occurs in an entry, or in a document, at any
    depth. *)
Fixpoint has_list (e : Entry) : bool :=
  match e with
  | BlockEntry _ _ d => existsb has_list d
  | PairEntry _ _ => false
  | ListEntry _ _ => true
  end.

Definition document_has_list (d : Document) : bool :=
  existsb has_list d.

(** ** Outcomes of the expression loop and of the block matcher *)

(** What a run of [parse_expression], of its loop and of [parse_block]
    establishes: where the keys of the result sit, that the expression
    matcher never reports no match, and how much fuel a run can use. *)
Definition expression_post (fuel : nat) (s : Parser)
  (o : Outcome (option Document)) : Prop :=
  match o with
  | Return (Some d) s' =>
      located (tokens s) (index s) (index s') d
      /\ document_has_list d = false
  | Return None _ => False
  | Raise _ _ => True
  | OutOfFuel _ => fuel < remaining s + 2
  end.

Definition loop_post (fuel : nat) (acc : Document) (s : Parser)
  (o : Outcome (option Document)) : Prop :=
  match o with
  | Return (Some d) s' =>
      exists d',
        d = acc ++ d' /\ located (tokens s) (index s) (index s') d'
        /\ document_has_list d' = false
  | Return None _ => False
  | Raise _ _ => True
  | OutOfFuel _ => fuel < remaining s + 1
  end.

Definition block_post (fuel : nat) (s : Parser)
  (o : Outcome (option Entry)) : Prop :=
  match o with
  | Return (Some e) s' =>
      exists k n d,
        e = BlockEntry k n d /\ key_at (tokens s) (index s) k
        /\ located (tokens s) (index s + 2) (index s') d
        /\ index s + 2 < index s'
        /\ (exists l, nth_error (tokens s) (index s + 2) = Some (Literal l))
        /\ document_has_list d = false
  | Return None _ => True
  | Raise _ _ => True
  | OutOfFuel _ => fuel < remaining s \/ fuel = 0
  end.

(** [parse_block] with an arbitrary handler in place of its branch
    [if expression is None: return expression]; the recursive call is the
    parser's own [parse_expression]. *)
Definition parse_block_with (on_none : M (option Entry)) (fuel : nat)
  : M (option Entry) :=
  backtrack_if_none (
    key <- parse_key ;;
    match key with
    | None => ret None
    | Some key =>
        is_literal <- check [LiteralToken] ;;
        literal <- (if is_literal
                    then v <- consume_token_value ;; ret (Some v)
                    else ret None) ;;
        is_open <- check [BlockStartToken] ;;
        if is_open then
          advance ;;
          expression <- parse_expression fuel ;;
          match expression with
          | None => on_none
          | Some expression =>
              is_close <- check [BlockEndToken] ;;
              if is_close then
                advance ;;
                match literal with
                | None => raise UnboundLocalError
                | Some l =>
                    ret (Some (BlockEntry key
                                 (if truthy l then Some l else None)
                                 expression))
                end
              else ret None
          end
        else ret None
    end).

(** ** Tokens that start and end items *)

(** The tokens that cannot start an item of an expression: anything but a
    literal, and but the two tokens that end the loop. *)
Definition starts_no_item (t : Token) : bool :=
  match t with
  | Literal _ | StreamEnd | BlockEnd => false
  | _ => true
  end.

(** The two tokens on which the loop of [parse_expression] stops. *)
Definition ends_expression (t : Token) : bool :=
  match t with
  | StreamEnd | BlockEnd => true
  | _ => false
  end.

(** ** Token sequences of lists, pairs and blocks *)

(** The tokens from the cursor on. *)
Definition suffix (s : Parser) : list Token :=
  skipn (index s) (tokens s).

(** A csv element as a token: a quoted literal or a literal, with its
    payload. *)
Definition content_token (c : bool * string) : Token :=
  if fst c then QuotedLiteral (snd c) else Literal (snd c).

(** The tokens of the elements after the first: each behind a comma. *)
Definition csv_tail (cs : list (bool * string)) : list Token :=
  flat_map (fun c => [Comma; content_token c]) cs.

(** The tokens of [key literal? '[' csv ']']. *)
Definition list_tokens (k : string) (name : option string)
  (c : bool * string) (cs : list (bool * string)) : list Token :=
  Literal k :: Value
  :: (match name with Some n => [Literal n] | None => [] end)
  ++ ListStart :: content_token c :: csv_tail cs ++ [ListEnd].

(** The tokens of a value and its payload:
    [value = quoted_literal / (literal sql_block_end?)]. *)
Inductive value_tokens : list Token -> string -> Prop :=
| value_quoted v : value_tokens [QuotedLiteral v] v
| value_literal v : value_tokens [Literal v] v
| value_sql v : value_tokens [Literal v; SqlEnd] v.

(** The token sequences of the grammar of the module's docstring that are
    made of pairs and of blocks with a name literal, nested at will, and
    the document each one stands for. A block's name is the payload of
    its name literal, absent when that payload is empty. The expression of
    a block may begin with a [StreamStart] token, which [parse_expression]
    skips wherever it is called. *)
Inductive derives : list Token -> Document -> Prop :=
| derives_nil : derives [] []
| derives_pair k vt v toks d :
    value_tokens vt v ->
    derives toks d ->
    derives (Literal k :: Value :: vt ++ toks) (PairEntry k v :: d)
| derives_block k n toks1 d1 toks d :
    derives toks1 d1 ->
    derives toks d ->
    derives (Literal k :: Value :: Literal n :: BlockStart
             :: toks1 ++ BlockEnd :: toks)
            (BlockEntry k (if truthy n then Some n else None) d1 :: d)
| derives_block_start k n toks1 d1 toks d :
    derives toks1 d1 ->
    derives toks d ->
    derives (Literal k :: Value :: Literal n :: BlockStart :: StreamStart
             :: toks1 ++ BlockEnd :: toks)
            (BlockEntry k (if truthy n then Some n else None) d1 :: d).

(** The outcome of a run that reads [n] tokens as the document [d], added
    to the entries [acc] it starts with; a run cut short by the fuel is
    let through. *)
Definition reads (acc d : Document) (s : Parser) (n : nat)
  (o : Outcome (option Document)) : Prop :=
  match o with
  | OutOfFuel _ => True
  | Return (Some r) s' =>
      r = acc ++ d /\ tokens s' = tokens s /\ index s' = index s + n
  | _ => False
  end.

(** ** The opening of a list *)

(** The number of tokens from the cursor up to and including [ListStart]
    when the tokens under the cursor are a key, a name literal or none, and
    [ListStart], which [parse_list] consumes before it turns to the
    elements; [None] when they are not of that form. *)
Definition list_opening (s : Parser) : option nat :=
  match nth_error (tokens s) (index s),
        nth_error (tokens s) (index s + 1),
        nth_error (tokens s) (index s + 2),
        nth_error (tokens s) (index s + 3) with
  | Some (Literal _), Some Value, Some ListStart, _ => Some 3
  | Some (Literal _), Some Value, Some (Literal _), Some ListStart => Some 4
  | _, _, _, _ => None
  end.

(** ** What the parser accepts *)

(** No key production sits at position [m]. *)
Definition no_key_at (ts : list Token) (m : nat) : Prop :=
  forall k, ~ key_at ts m k.

(** The mark is set on a position where no key production sits. *)
Definition mark_off_key (s : Parser) : Prop :=
  exists m, mark s = Some m /\ no_key_at (tokens s) m.

(** The mark is set on such a position, or on the cursor, or right
    before it. *)
Definition settled (s : Parser) : Prop :=
  exists m,
    mark s = Some m
    /\ (no_key_at (tokens s) m \/ m + 1 = index s \/ m = index s).

(** From [s] to [s'] the cursor has moved over the tokens [toks]. *)
Definition span (s s' : Parser) (toks : list Token) : Prop :=
  tokens s' = tokens s
  /\ skipn (index s) (tokens s) = toks ++ skipn (index s') (tokens s).

(** What a returned document, or a returned block, was read from. *)
Definition sound_expression (s : Parser) (o : Outcome (option Document))
  : Prop :=
  match o with
  | Return (Some r) s' =>
      (exists toks,
         derives toks r
         /\ (span s s' toks \/ span s s' (StreamStart :: toks)))
      /\ mark_off_key s'
  | _ => True
  end.

(** The same for the loop of [parse_expression], which adds the entries it
    reads to [acc]. *)
Definition sound_loop (acc : Document) (s : Parser)
  (o : Outcome (option Document)) : Prop :=
  match o with
  | Return (Some r) s' =>
      (exists d toks, r = acc ++ d /\ derives toks d /\ span s s' toks)
      /\ mark_off_key s'
  | _ => True
  end.

(** The same for [parse_block]; when it reports no match, the cursor is
    back at the start or on a position where no key production sits. *)
Definition sound_block (s : Parser) (o : Outcome (option Entry)) : Prop :=
  match o with
  | Return (Some b) s' =>
      (exists toks, derives toks [b] /\ span s s' toks) /\ mark_off_key s'
  | Return None s' =>
      tokens s' = tokens s
      /\ (index s' = index s \/ no_key_at (tokens s) (index s'))
  | _ => True
  end.

(** ** Streams that hold a [StreamEnd]; the exceptions of a parse *)

(** The cursor is at or before position [e], where a [StreamEnd] sits. *)
Definition ahead (e : nat) (s : Parser) : Prop :=
  index s <= e /\ nth_error (tokens s) e = Some StreamEnd.

(** The mark is set, at or before position [e]. *)
Definition marked (e : nat) (s : Parser) : Prop :=
  exists m, mark s = Some m /\ m <= e.

(** The two exceptions a parse of such a stream can end in. *)
Definition syntax_or_unbound (err : PyError) : Prop :=
  err = Exception "Syntax error." \/ err = UnboundLocalError.

(** An outcome that leaves the cursor at or before [e], the mark too when
    it returns, and that raises nothing but the two exceptions above. *)
Definition clean {A} (e : nat) (o : Outcome A) : Prop :=
  ahead e (final o)
  /\ match o with
     | Return _ s' => marked e s'
     | Raise err _ => syntax_or_unbound err
     | OutOfFuel _ => True
     end.

(** The exceptions a matcher can end in on an arbitrary stream. *)
Definition expected_error (err : PyError) : Prop :=
  err = IndexError \/ err = Exception "Syntax error."
  \/ err = UnboundLocalError.

(** An outcome that returns with the mark set, or raises one of the
    expected exceptions. *)
Definition tidy {A} (o : Outcome A) : Prop :=
  match o with
  | Return _ s' => exists m, mark s' = Some m
  | Raise err _ => expected_error err
  | OutOfFuel _ => True
  end.

(** ** Token streams of the examples *)

Definition foo_list : list Token :=
  [Literal "foo"; Value; ListStart; Literal "1"; Comma; Literal "2"; Comma;
   QuotedLiteral "three"; ListEnd; StreamEnd].

Definition foo_empty_list : list Token :=
  [Literal "foo"; Value; ListStart; ListEnd; StreamEnd].

Definition foo_trailing_comma : list Token :=
  [Literal "foo"; Value; ListStart; Literal "1"; Comma; ListEnd; StreamEnd].

Definition foo_bar_sql : list Token :=
  [Literal "foo"; Value; Literal "bar"; SqlEnd; StreamEnd].

Definition foo_open_block : list Token :=
  [Literal "foo"; Value; BlockStart; StreamEnd].

Definition repeated_keys : list Token :=
  [Literal "a"; Value; Literal "b"; Literal "a"; Value; QuotedLiteral "c";
   StreamEnd].

(** * Properties *)

(** ** Invariants of the cursor

    A predicate on parser states that the three writes to the object
    ([set_mark], [jump_to_mark], and [advance] at an in-bounds position)
    maintain is maintained by every matcher, whatever its outcome. *)

Create HintDb preserve.

Section Preservation.

Variable I : Parser -> Prop.

Hypothesis I_set_mark : forall s, I s -> I (with_mark s (index s)).
Hypothesis I_jump : forall s m, I s -> mark s = Some m -> I (with_index s m).
Hypothesis I_advance :
  forall s, I s -> index s < List.length (tokens s) ->
            I (with_index s (index s + 1)).

Lemma preserves_ret A (a : A) : preserves I (ret a).
Proof. intros s Hs; exact Hs. Qed.

Lemma preserves_raise A e : preserves I (@raise A e).
Proof. intros s Hs; exact Hs. Qed.

Lemma preserves_out_of_fuel A : preserves I (@out_of_fuel A).
Proof. intros s Hs; exact Hs. Qed.

Lemma preserves_bind A B (m : M A) (k : A -> M B) :
  preserves I m -> (forall a, preserves I (k a)) -> preserves I (bind m k).
Proof.
  intros Hm Hk s Hs. unfold bind.
  specialize (Hm s Hs). destruct (m s) as [a s'|e s'|s']; simpl in *; auto.
  apply Hk; assumption.
Qed.

Lemma preserves_set_mark : preserves I set_mark.
Proof. intros s Hs; simpl; auto. Qed.

Lemma preserves_jump_to_mark : preserves I jump_to_mark.
Proof.
  intros s Hs. unfold jump_to_mark.
  destruct (mark s) eqn:E; simpl; eauto.
Qed.

Lemma preserves_peek : preserves I peek.
Proof.
  intros s Hs. unfold peek.
  destruct (nth_error (tokens s) (index s)); simpl; auto.
Qed.

Lemma preserves_advance : preserves I advance.
Proof.
  intros s Hs. unfold advance, bind, peek.
  destruct (nth_error (tokens s) (index s)) eqn:E; simpl; auto.
  apply I_advance; auto.
  apply nth_error_Some. congruence.
Qed.

Hint Resolve preserves_ret preserves_raise preserves_out_of_fuel
  preserves_set_mark preserves_jump_to_mark preserves_peek
  preserves_advance : preserve.

Ltac preserve :=
  repeat first
    [ assumption
    | solve [auto with preserve]
    | apply preserves_bind; [ | intro ]
    | match goal with
      | |- preserves _ (if ?b then _ else _) => destruct b
      | |- preserves _ (match ?x with Some _ => _ | None => _ end) =>
          destruct x
      end ].

Lemma preserves_backtrack_if_none A (method : M (option A)) :
  preserves I method -> preserves I (backtrack_if_none method).
Proof. intro H. unfold backtrack_if_none. preserve. Qed.

Lemma preserves_consume : preserves I consume.
Proof. unfold consume. preserve. Qed.

Lemma preserves_consume_token_value : preserves I consume_token_value.
Proof.
  unfold consume_token_value. apply preserves_bind.
  - apply preserves_consume.
  - intro t. destruct (token_value t); auto with preserve.
Qed.

Lemma preserves_check tys : preserves I (check tys).
Proof. unfold check. preserve. Qed.

Hint Resolve preserves_consume preserves_consume_token_value
  preserves_check : preserve.

Lemma preserves_parse_key : preserves I parse_key.
Proof.
  unfold parse_key. apply preserves_backtrack_if_none. preserve.
Qed.

Lemma preserves_parse_value : preserves I parse_value.
Proof.
  unfold parse_value. apply preserves_backtrack_if_none. preserve.
Qed.

Hint Resolve preserves_parse_key preserves_parse_value : preserve.

Lemma preserves_parse_pair : preserves I parse_pair.
Proof.
  unfold parse_pair. apply preserves_backtrack_if_none. preserve.
Qed.

Lemma preserves_csv_value : preserves I csv_value.
Proof. unfold csv_value. preserve. Qed.

Hint Resolve preserves_parse_pair preserves_csv_value : preserve.

Lemma preserves_csv_loop fuel : forall values,
  preserves I (csv_loop fuel values).
Proof.
  induction fuel as [|fuel IH]; intro values; simpl.
  - auto with preserve.
  - preserve.
Qed.

Lemma preserves_parse_csv fuel : preserves I (parse_csv fuel).
Proof.
  unfold parse_csv. apply preserves_backtrack_if_none. preserve.
  apply preserves_csv_loop.
Qed.

Hint Resolve preserves_parse_csv : preserve.

Lemma preserves_parse_list fuel : preserves I (parse_list fuel).
Proof.
  unfold parse_list. apply preserves_backtrack_if_none. preserve.
Qed.

Hint Resolve preserves_parse_list : preserve.

Lemma preserves_expression fuel :
  preserves I (parse_expression fuel)
  /\ (forall expression, preserves I (expression_loop fuel expression))
  /\ preserves I (parse_block fuel).
Proof.
  induction fuel as [|fuel (IHe & IHl & IHb)]; simpl.
  - repeat split; auto with preserve.
  - repeat split.
    + apply preserves_backtrack_if_none. preserve.
    + intro expression. preserve.
    + apply preserves_backtrack_if_none. preserve.
Qed.

Lemma preserves_parse_expression fuel : preserves I (parse_expression fuel).
Proof. apply preserves_expression. Qed.

Lemma preserves_expression_loop fuel expression :
  preserves I (expression_loop fuel expression).
Proof. apply preserves_expression. Qed.

Lemma preserves_parse_block fuel : preserves I (parse_block fuel).
Proof. apply preserves_expression. Qed.

End Preservation.

Lemma same_tokens_invariant ts : cursor_invariant (same_tokens ts).
Proof. repeat split; intros; assumption. Qed.

Lemma in_bounds_invariant : cursor_invariant in_bounds.
Proof.
  unfold cursor_invariant, in_bounds. split; [|split].
  - intros s (Hi & Hm & Hh & Hd). simpl. repeat split; auto.
    intros m E. inversion E. lia.
  - intros s m (Hi & Hm & Hh & Hd) E. simpl. repeat split; auto.
  - intros s (Hi & Hm & Hh & Hd) Hlt. simpl. repeat split; auto.
    + lia.
    + constructor; [lia | assumption].
Qed.

Lemma from_invariant i : cursor_invariant (from i).
Proof.
  unfold cursor_invariant, from. split; [|split].
  - intros s (Hi & Hm). simpl. split; auto.
    intros m E. inversion E. lia.
  - intros s m (Hi & Hm) E. simpl. auto.
  - intros s (Hi & Hm) Hlt. simpl. split; [lia | assumption].
Qed.

(** Every matcher maintains every cursor invariant. *)
Section Stable.

Variable I : Parser -> Prop.
Hypothesis HI : cursor_invariant I.

Let I1 := proj1 HI.
Let I2 := proj1 (proj2 HI).
Let I3 := proj2 (proj2 HI).

Lemma stable_parse_key : preserves I parse_key.
Proof. apply preserves_parse_key; assumption. Qed.

Lemma stable_parse_value : preserves I parse_value.
Proof. apply preserves_parse_value; assumption. Qed.

Lemma stable_parse_pair : preserves I parse_pair.
Proof. apply preserves_parse_pair; assumption. Qed.

Lemma stable_parse_csv fuel : preserves I (parse_csv fuel).
Proof. apply preserves_parse_csv; assumption. Qed.

Lemma stable_parse_list fuel : preserves I (parse_list fuel).
Proof. apply preserves_parse_list; assumption. Qed.

Lemma stable_parse_block fuel : preserves I (parse_block fuel).
Proof. apply preserves_parse_block; assumption. Qed.

Lemma stable_parse_expression fuel : preserves I (parse_expression fuel).
Proof. apply preserves_parse_expression; assumption. Qed.

Lemma stable_expression_loop fuel expression :
  preserves I (expression_loop fuel expression).
Proof. apply preserves_expression_loop; assumption. Qed.

Lemma stable_check tys : preserves I (check tys).
Proof. apply preserves_check; assumption. Qed.

Lemma stable_advance : preserves I advance.
Proof. apply preserves_advance; assumption. Qed.

Lemma stable_consume_token_value : preserves I consume_token_value.
Proof. apply preserves_consume_token_value; assumption. Qed.

End Stable.

(** ** The primitives, equationally *)

Lemma check_eq tys s :
  check tys s =
  match nth_error (tokens s) (index s) with
  | Some t => Return (existsb (TokenType_eqb (type_of t)) tys) s
  | None => Raise IndexError s
  end.
Proof.
  unfold check, bind, peek, ret.
  destruct (nth_error (tokens s) (index s)); reflexivity.
Qed.

Lemma advance_eq s :
  advance s =
  match nth_error (tokens s) (index s) with
  | Some _ => Return tt (with_index s (index s + 1))
  | None => Raise IndexError s
  end.
Proof.
  unfold advance, bind, peek.
  destruct (nth_error (tokens s) (index s)); reflexivity.
Qed.

Lemma consume_eq s :
  consume s =
  match nth_error (tokens s) (index s) with
  | Some t => Return t (with_index s (index s + 1))
  | None => Raise IndexError s
  end.
Proof.
  unfold consume, advance, bind, peek, ret.
  destruct (nth_error (tokens s) (index s)) eqn:E; cbn; [|reflexivity].
  rewrite E. reflexivity.
Qed.

Lemma consume_token_value_eq s :
  consume_token_value s =
  match nth_error (tokens s) (index s) with
  | Some t =>
      match token_value t with
      | Some v => Return v (with_index s (index s + 1))
      | None => Raise AttributeError (with_index s (index s + 1))
      end
  | None => Raise IndexError s
  end.
Proof.
  unfold consume_token_value, bind. rewrite consume_eq.
  destruct (nth_error (tokens s) (index s)) as [t|]; [|reflexivity].
  destruct (token_value t); reflexivity.
Qed.

(** A wrapped matcher started at [s] behaves as if started right after its
    own [set_mark]. *)
Lemma backtrack_if_none_set_mark A (method : M (option A)) s :
  backtrack_if_none method s
  = backtrack_if_none method (with_mark s (index s)).
Proof. reflexivity. Qed.

Ltac step :=
  first
    [ rewrite check_eq
    | rewrite advance_eq
    | rewrite consume_token_value_eq ];
  cbn [tokens index mark history with_index with_mark].

Lemma parse_key_spec s :
  match parse_key s with
  | Return (Some k) s' =>
      nth_error (tokens s) (index s) = Some (Literal k)
      /\ nth_error (tokens s) (index s + 1) = Some Value
      /\ index s' = index s + 2
      /\ tokens s' = tokens s
  | Return None s' => index s' = index s
  | Raise e _ => e = IndexError
  | OutOfFuel _ => False
  end.
Proof.
  unfold parse_key, backtrack_if_none, bind, set_mark.
  step. destruct (nth_error (tokens s) (index s)) as [t|] eqn:E0; [|reflexivity].
  destruct t; cbn; try reflexivity.
  step. rewrite E0. cbn.
  step. destruct (nth_error (tokens s) (index s + 1)) as [t|] eqn:E1;
    [|reflexivity].
  destruct t; cbn; try reflexivity.
  step. rewrite E1. cbn. repeat split. lia.
Qed.

(** ** What every wrapped matcher leaves behind

    Whatever the outcome, the tokens are those it started with and the
    cursor is at or after the position it started at. *)

Lemma framed_wrapped A (method : M (option A)) :
  (forall I, cursor_invariant I -> preserves I (backtrack_if_none method)) ->
  framed (backtrack_if_none method).
Proof.
  intros H s. split.
  - apply (H _ (same_tokens_invariant (tokens s))). reflexivity.
  - rewrite backtrack_if_none_set_mark.
    apply (H _ (from_invariant (index s))).
    split; simpl; [lia|]. intros m E; inversion E; lia.
Qed.

Lemma framed_out_of_fuel A : framed (@out_of_fuel A).
Proof. intro s; simpl; split; [reflexivity | lia]. Qed.

Lemma framed_parse_key : framed parse_key.
Proof. apply framed_wrapped. intros I HI. apply stable_parse_key, HI. Qed.

Lemma framed_parse_value : framed parse_value.
Proof. apply framed_wrapped. intros I HI. apply stable_parse_value, HI. Qed.

Lemma framed_parse_pair : framed parse_pair.
Proof. apply framed_wrapped. intros I HI. apply stable_parse_pair, HI. Qed.

Lemma framed_parse_csv fuel : framed (parse_csv fuel).
Proof. apply framed_wrapped. intros I HI. apply stable_parse_csv, HI. Qed.

Lemma framed_parse_list fuel : framed (parse_list fuel).
Proof. apply framed_wrapped. intros I HI. apply stable_parse_list, HI. Qed.

Lemma framed_parse_block fuel : framed (parse_block fuel).
Proof.
  destruct fuel as [|fuel]; [apply framed_out_of_fuel|].
  apply framed_wrapped. intros I HI.
  apply (stable_parse_block HI (S fuel)).
Qed.

Lemma framed_parse_expression fuel : framed (parse_expression fuel).
Proof.
  destruct fuel as [|fuel]; [apply framed_out_of_fuel|].
  apply framed_wrapped. intros I HI.
  apply (stable_parse_expression HI (S fuel)).
Qed.

(** ** The leaf matchers *)

Arguments parse_key : simpl never.
Arguments parse_value : simpl never.
Arguments parse_pair : simpl never.
Arguments parse_csv : simpl never.
Arguments parse_list : simpl never.

Ltac look :=
  match goal with
  | H : nth_error ?l ?i = _ |- context [nth_error ?l ?i] => rewrite H
  | |- context [match nth_error ?l ?i with _ => _ end] =>
      let t := fresh "t" in
      let E := fresh "E" in
      destruct (nth_error l i) as [t|] eqn:E; [destruct t|]
  end;
  cbn.

Ltac jump :=
  unfold jump_to_mark;
  match goal with
  | |- context [mark ?s] => destruct (mark s)
  end;
  cbn; auto.

Ltac run :=
  cbn;
  repeat first
    [ progress step
    | progress look
    | match goal with
      | |- context [jump_to_mark ?s] =>
          unfold jump_to_mark; destruct (mark s); cbn
      end ];
  cbn; auto; try contradiction.

Lemma parse_value_spec s :
  match parse_value s with
  | Return (Some _) s' => index s < index s'
  | Return None s' => index s' = index s
  | Raise e _ => e = IndexError
  | OutOfFuel _ => False
  end.
Proof.
  unfold parse_value, backtrack_if_none, bind, set_mark.
  step. look; try reflexivity; repeat (step; look); try reflexivity; lia.
Qed.

Lemma parse_pair_spec s :
  match parse_pair s with
  | Return (Some e) s' =>
      exists k v, e = PairEntry k v /\ key_at (tokens s) (index s) k
                  /\ index s + 2 < index s'
  | Return None _ => True
  | Raise _ _ => True
  | OutOfFuel _ => False
  end.
Proof.
  unfold parse_pair, backtrack_if_none, bind, set_mark.
  set (s0 := with_mark s (index s)).
  pose proof (parse_key_spec s0) as Hk.
  destruct (parse_key s0) as [[k|] s1|e s1|s1]; cbn; auto; [|jump].
  destruct Hk as (K0 & K1 & Hi & Ht).
  pose proof (parse_value_spec s1) as Hv.
  destruct (parse_value s1) as [[v|] s2|e s2|s2]; cbn; auto; [|jump].
  exists k, v. repeat split; auto. simpl in Hi. lia.
Qed.

Lemma nth_error_in_bounds (ts : list Token) i t :
  nth_error ts i = Some t -> i < List.length ts.
Proof. intro H. apply nth_error_Some. congruence. Qed.

Lemma csv_value_spec s :
  match csv_value s with
  | Return (Some _) s' =>
      index s' = index s + 1 /\ tokens s' = tokens s
      /\ index s < List.length (tokens s)
  | Return None s' => s' = s
  | Raise _ _ => True
  | OutOfFuel _ => False
  end.
Proof.
  unfold csv_value, bind.
  run; repeat split; eauto using nth_error_in_bounds.
Qed.

Lemma csv_loop_fuel fuel : forall values s,
  match csv_loop fuel values s with
  | OutOfFuel _ => fuel <= remaining s
  | _ => True
  end.
Proof.
  induction fuel as [|fuel IH]; intros values s; simpl.
  - lia.
  - unfold bind.
    step. look; auto; step; look; auto; step; look.
    set (s1 := with_index s (index s + 1)).
    pose proof (csv_value_spec s1) as Hv.
    destruct (csv_value s1) as [[v|] s2|e s2|s2]; cbn; auto;
      try contradiction.
    specialize (IH (values ++ [v]) s2).
    destruct (csv_loop fuel (values ++ [v]) s2); auto.
    destruct Hv as (Hi & Ht & _).
    apply nth_error_in_bounds in E.
    unfold remaining in *. rewrite Ht in IH. rewrite Hi in IH.
    simpl in IH. lia.
Qed.

Lemma parse_csv_fuel fuel s :
  match parse_csv fuel s with
  | OutOfFuel _ => fuel < remaining s
  | _ => True
  end.
Proof.
  unfold parse_csv, backtrack_if_none, bind, set_mark.
  set (s0 := with_mark s (index s)).
  pose proof (csv_value_spec s0) as Hv.
  destruct (csv_value s0) as [[v|] s1|e s1|s1]; run.
  pose proof (csv_loop_fuel fuel [v] s1) as Hl.
  destruct (csv_loop fuel [v] s1) as [[vs|] s2|e s2|s2]; run.
  destruct Hv as (Hi & Ht & Hb). unfold remaining in *.
  rewrite Ht, Hi in Hl. simpl in *. lia.
Qed.

Lemma parse_list_spec fuel s :
  match parse_list fuel s with
  | Return (Some e) s' =>
      exists k vs, e = ListEntry k vs /\ key_at (tokens s) (index s) k
                   /\ index s + 2 < index s'
  | Return None _ => True
  | Raise _ _ => True
  | OutOfFuel _ => fuel < remaining s
  end.
Proof.
  unfold parse_list, backtrack_if_none, bind, set_mark.
  set (s0 := with_mark s (index s)).
  pose proof (parse_key_spec s0) as Hk.
  destruct (parse_key s0) as [[k|] s1|e s1|s1]; run.
  all: destruct Hk as (K0 & K1 & Hi & Ht).
  all: match goal with
       | |- context [parse_csv ?f ?st] =>
           pose proof (parse_csv_fuel f st) as Hf;
           pose proof (framed_parse_csv f st) as (_ & Hm);
           destruct (parse_csv f st) as [[csv|] s2|e s2|s2]
       end; run.
  all: unfold remaining in *; cbn in *.
  all: try (exists k, csv; repeat split; auto; lia).
  all: try (rewrite Ht in *; apply nth_error_in_bounds in E; lia).
Qed.

(** A list is tried only after a pair has failed, at the position the
    failed pair leaves the cursor, and it never matches there: either
    there is no key, or the cursor is behind the key that the pair matched,
    on a token that starts no key. *)
Lemma parse_list_after_failed_pair fuel s :
  match parse_pair s with
  | Return None s' =>
      match parse_list fuel s' with
      | Return (Some _) _ => False
      | _ => True
      end
  | _ => True
  end.
Proof.
  unfold parse_pair, parse_key, parse_value, backtrack_if_none, bind, set_mark.
  run.
  all: unfold parse_list, parse_key, backtrack_if_none, bind, set_mark; run.
Qed.

(** ** Where the keys of a document sit in the stream *)

Lemma StronglySorted_lt_app (l1 l2 : list nat) mid :
  StronglySorted lt l1 -> StronglySorted lt l2 ->
  Forall (fun p => p < mid) l1 -> Forall (fun p => mid <= p) l2 ->
  StronglySorted lt (l1 ++ l2).
Proof.
  intros S1 S2 B1 B2. induction S1 as [|a l1 S1 IH Ha]; simpl; auto.
  inversion B1; subst. constructor; auto.
  apply Forall_app; split; auto.
  eapply Forall_impl; [|exact B2]. simpl; intros; lia.
Qed.

Lemma document_keys_app d1 d2 :
  document_keys (d1 ++ d2) = document_keys d1 ++ document_keys d2.
Proof. apply flat_map_app. Qed.

Lemma located_nil ts lo hi : lo <= hi -> located ts lo hi [].
Proof.
  intro H. split; auto. exists []. split; [|split]; constructor.
Qed.

Lemma located_widen ts lo hi lo' hi' d :
  located ts lo hi d -> lo' <= lo -> hi <= hi' -> located ts lo' hi' d.
Proof.
  intros (Hle & ps & F2 & Hs & Hb) H1 H2. split; [lia|].
  exists ps. split; [|split]; auto.
  eapply Forall_impl; [|exact Hb]. simpl; intros; lia.
Qed.

Lemma located_app ts lo mid hi d1 d2 :
  located ts lo mid d1 -> located ts mid hi d2 ->
  located ts lo hi (d1 ++ d2).
Proof.
  intros (L1 & ps1 & F1 & S1 & B1) (L2 & ps2 & F2 & S2 & B2).
  split; [lia|]. exists (ps1 ++ ps2). rewrite document_keys_app.
  split; [|split].
  - apply Forall2_app; assumption.
  - apply StronglySorted_lt_app with (mid := mid); auto.
    + eapply Forall_impl; [|exact B1]. simpl; intros; lia.
    + eapply Forall_impl; [|exact B2]. simpl; intros; lia.
  - apply Forall_app; split.
    + eapply Forall_impl; [|exact B1]. simpl; intros; lia.
    + eapply Forall_impl; [|exact B2]. simpl; intros; lia.
Qed.

Lemma located_leaf ts p hi e k :
  entry_keys e = [k] -> key_at ts p k -> p < hi -> located ts p hi [e].
Proof.
  intros He Hk Hlt. split; [lia|]. exists [p].
  unfold document_keys. simpl. rewrite He. simpl.
  split; [|split].
  - constructor; [assumption | constructor].
  - repeat constructor.
  - constructor; [lia | constructor].
Qed.

Lemma located_block ts p hi k n d :
  key_at ts p k -> located ts (p + 1) hi d ->
  located ts p hi [BlockEntry k n d].
Proof.
  intros Hk (Hle & ps & F2 & Hs & Hb). split; [lia|]. exists (p :: ps).
  unfold document_keys. simpl. rewrite app_nil_r.
  split; [|split].
  - constructor; assumption.
  - constructor; auto.
    eapply Forall_impl; [|exact Hb]. simpl; intros; lia.
  - constructor; [lia|].
    eapply Forall_impl; [|exact Hb]. simpl; intros; lia.
Qed.

(** ** The expression loop and the block matcher *)

Lemma parse_expression_S fuel :
  parse_expression (S fuel) =
  backtrack_if_none (
    is_start <- check [StreamStartToken] ;;
    (if is_start then advance else ret tt) ;;
    expression_loop fuel []).
Proof. reflexivity. Qed.

Lemma expression_loop_S fuel expression :
  expression_loop (S fuel) expression =
  (stop <- check [StreamEndToken; BlockEndToken] ;;
   if stop then ret (Some expression)
   else
     block <- parse_block fuel ;;
     match block with
     | Some block => expression_loop fuel (expression ++ [block])
     | None =>
         pair' <- parse_pair ;;
         match pair' with
         | Some pair' => expression_loop fuel (expression ++ [pair'])
         | None =>
             list' <- parse_list fuel ;;
             match list' with
             | Some list' => expression_loop fuel (expression ++ [list'])
             | None => raise (Exception "Syntax error.")
             end
         end
     end).
Proof. reflexivity. Qed.

Lemma parse_block_S fuel :
  parse_block (S fuel) =
  backtrack_if_none (
    key <- parse_key ;;
    match key with
    | None => ret None
    | Some key =>
        is_literal <- check [LiteralToken] ;;
        literal <- (if is_literal
                    then v <- consume_token_value ;; ret (Some v)
                    else ret None) ;;
        is_open <- check [BlockStartToken] ;;
        if is_open then
          advance ;;
          expression <- parse_expression fuel ;;
          match expression with
          | None => ret None
          | Some expression =>
              is_close <- check [BlockEndToken] ;;
              if is_close then
                advance ;;
                match literal with
                | None => raise UnboundLocalError
                | Some l =>
                    ret (Some (BlockEntry key
                                 (if truthy l then Some l else None)
                                 expression))
                end
              else ret None
          end
        else ret None
    end).
Proof. reflexivity. Qed.

Arguments parse_expression : simpl never.
Arguments expression_loop : simpl never.
Arguments parse_block : simpl never.

Lemma loop_post_step fuel acc s e s1 o :
  loop_post fuel (acc ++ [e]) s1 o ->
  tokens s1 = tokens s ->
  located (tokens s) (index s) (index s1) [e] ->
  has_list e = false ->
  index s < index s1 ->
  index s < List.length (tokens s) ->
  loop_post (S fuel) acc s o.
Proof.
  intros H Ht Hl Hn Hi Hb.
  destruct o as [[d|] s'|e' s'|s']; simpl in *; auto.
  - destruct H as (d' & -> & Hd & Hnd). exists (e :: d'). split; [|split].
    + rewrite <- app_assoc. reflexivity.
    + change (e :: d') with ([e] ++ d').
      eapply located_app; [exact Hl|]. rewrite <- Ht. exact Hd.
    + simpl. rewrite Hn. exact Hnd.
  - unfold remaining in *. rewrite Ht in H. lia.
Qed.

Lemma loop_post_S fuel :
  (forall s, block_post fuel s (parse_block fuel s)) ->
  (forall acc s, loop_post fuel acc s (expression_loop fuel acc s)) ->
  forall acc s, loop_post (S fuel) acc s (expression_loop (S fuel) acc s).
Proof.
  intros IHb IHl acc s. rewrite expression_loop_S. unfold bind.
  step.
  destruct (nth_error (tokens s) (index s)) as [t|] eqn:E; [|exact I].
  assert (Hin : index s < List.length (tokens s))
    by (eapply nth_error_in_bounds; eassumption).
  destruct (existsb (TokenType_eqb (type_of t))
              [StreamEndToken; BlockEndToken]).
  { simpl. exists []. split; [symmetry; apply app_nil_r|].
    split; [apply located_nil; lia | reflexivity]. }
  pose proof (IHb s) as Hb.
  pose proof (framed_parse_block fuel s) as (Ft & Fi).
  destruct (parse_block fuel s) as [[e|] s1|e s1|s1]; simpl in *; auto.
  - (* a block *)
    destruct Hb as (k & n & d & -> & Hk & Hd & Hlt & _ & Hn).
    eapply loop_post_step;
      [apply IHl | assumption | | exact Hn | lia | assumption].
    apply located_block; auto.
    eapply located_widen; [exact Hd | lia | lia].
  - (* no block: a pair *)
    pose proof (parse_pair_spec s1) as Hp.
    pose proof (framed_parse_pair s1) as (Ft1 & Fi1).
    pose proof (parse_list_after_failed_pair fuel s1) as Hnl.
    destruct (parse_pair s1) as [[e|] s2|e s2|s2]; simpl in *; auto;
      try contradiction.
    + destruct Hp as (k & v & -> & Hk & Hlt).
      eapply loop_post_step;
        [apply IHl | congruence | | reflexivity | lia | assumption].
      rewrite Ft in Hk.
      eapply located_widen;
        [eapply located_leaf with (k := k); [reflexivity | exact Hk | ]
        | | ]; [| | apply Nat.le_refl]; lia.
    + (* no pair: a list *)
      pose proof (parse_list_spec fuel s2) as Hl.
      pose proof (framed_parse_list fuel s2) as (Ft2 & Fi2).
      destruct (parse_list fuel s2) as [[e|] s3|e s3|s3]; simpl in *; auto.
      * contradiction.
      * unfold remaining in *. rewrite Ft1, Ft in Hl. lia.
  - unfold remaining in *. lia.
Qed.

Lemma expression_post_S fuel :
  (forall acc s, loop_post fuel acc s (expression_loop fuel acc s)) ->
  forall s, expression_post (S fuel) s (parse_expression (S fuel) s).
Proof.
  intros IHl s. rewrite parse_expression_S.
  unfold backtrack_if_none, bind, set_mark.
  step.
  destruct (nth_error (tokens s) (index s)) as [t|] eqn:E; [|exact I].
  assert (Hin : index s < List.length (tokens s))
    by (eapply nth_error_in_bounds; eassumption).
  destruct (existsb (TokenType_eqb (type_of t)) [StreamStartToken]); cbn.
  - step. rewrite E.
    match goal with
    | |- context [expression_loop fuel [] ?st] =>
        pose proof (IHl [] st) as Hl;
        destruct (expression_loop fuel [] st) as [[d|] s'|e s'|s']
    end; simpl in *; auto; try contradiction.
    + destruct Hl as (d' & -> & Hd & Hn). simpl. split; [|exact Hn].
      eapply located_widen; [exact Hd | lia | lia].
    + unfold remaining in *. simpl in *. lia.
  - match goal with
    | |- context [expression_loop fuel [] ?st] =>
        pose proof (IHl [] st) as Hl;
        destruct (expression_loop fuel [] st) as [[d|] s'|e s'|s']
    end; simpl in *; auto; try contradiction.
    + destruct Hl as (d' & -> & Hd & Hn). simpl. split; assumption.
    + unfold remaining in *. simpl in *. lia.
Qed.

Lemma block_post_S fuel :
  (forall s, expression_post fuel s (parse_expression fuel s)) ->
  forall s, block_post (S fuel) s (parse_block (S fuel) s).
Proof.
  intros IHe s. rewrite parse_block_S.
  unfold backtrack_if_none, bind, set_mark.
  set (s0 := with_mark s (index s)).
  pose proof (parse_key_spec s0) as Hk.
  destruct (parse_key s0) as [[k|] s1|e s1|s1]; run.
  all: destruct Hk as (K0 & K1 & Hi & Ht).
  all: match goal with
       | |- context [parse_expression ?f ?st] =>
           pose proof (IHe st) as He;
           pose proof (framed_parse_expression f st) as (Ft & Fi);
           destruct (parse_expression f st) as [[d|] s2|e s2|s2]
       end; run.
  all: assert (Hkey : key_at (tokens s) (index s) k) by (split; assumption).
  all: unfold expression_post, remaining in *; cbn in *.
  all: rewrite Ht, Hi in *.
  - exists k, (if truthy value then Some value else None), d.
    destruct He as (He & Hn).
    split; [reflexivity|]. split; [assumption|].
    apply nth_error_in_bounds in E1.
    split; [|split; [lia|split]].
    + eapply located_widen; [exact He | lia | lia].
    + exists value. exact E.
    + exact Hn.
  - apply nth_error_in_bounds in E0. left; lia.
  - apply nth_error_in_bounds in E. left; lia.
Qed.

(** The three statements together. *)
Lemma expression_spec fuel :
  (forall s, expression_post fuel s (parse_expression fuel s))
  /\ (forall acc s, loop_post fuel acc s (expression_loop fuel acc s))
  /\ (forall s, block_post fuel s (parse_block fuel s)).
Proof.
  induction fuel as [|fuel (IHe & IHl & IHb)].
  - repeat split; intros; simpl; unfold remaining; lia || (right; lia) || auto.
  - split; [|split].
    + apply expression_post_S; assumption.
    + apply loop_post_S; assumption.
    + apply block_post_S; assumption.
Qed.

(** The branch of [parse_block] for an expression that did not match is
    never taken: any handler there gives the same matcher. *)
Lemma parse_block_with_any on_none fuel s :
  parse_block_with on_none fuel s = parse_block (S fuel) s.
Proof.
  rewrite parse_block_S.
  unfold parse_block_with, backtrack_if_none, bind, set_mark.
  destruct (parse_key (with_mark s (index s))) as [[k|] s1|e s1|s1];
    try reflexivity.
  run.
  all: match goal with
       | |- context [parse_expression ?f ?st] =>
           pose proof (proj1 (expression_spec f) st) as He;
           destruct (parse_expression f st) as [[d|] s2|e s2|s2]
       end; simpl in He; try contradiction; reflexivity.
Qed.

(** A block is returned only when a name literal follows its key. *)
Lemma parse_block_needs_name fuel s e s' :
  parse_block fuel s = Return (Some e) s' ->
  exists l, nth_error (tokens s) (index s + 2) = Some (Literal l).
Proof.
  intro H. pose proof (proj2 (proj2 (expression_spec fuel)) s) as Hb.
  rewrite H in Hb. destruct Hb as (k & n & d & _ & _ & _ & _ & Hl & _).
  exact Hl.
Qed.

(** No document the parser returns holds a List entry, at any depth. *)
Lemma parse_never_returns_list stream d :
  parse_tokens stream = Returned (Some d) -> document_has_list d = false.
Proof.
  unfold parse_tokens, parse. intro H.
  pose proof (proj1 (expression_spec (2 + List.length stream))
                (new_parser stream)) as He.
  simpl tokens in H.
  destruct (parse_expression (2 + List.length stream) (new_parser stream))
    as [[d'|] s'|e s'|s']; simpl in H; try discriminate.
  inversion H; subst d'. apply He.
Qed.

(** * The statements of the specification *)

(** C1. On the token stream of [foo: [1, 2, "three"]] the top-level parse
    does not return the List entry of the grammar: it raises
    [Exception("Syntax error.")]. The failed [parse_pair] leaves the cursor
    behind the key (index 2), so [parse_list] is entered at the [ListStart]
    token and finds no key. Called at the key itself (index 0), [parse_list]
    does return the entry mapping "foo" to ["1", "2", "three"]. The same
    happens to every list: no document the parser returns holds a List
    entry. *)
Theorem parse_foo_list_raises_syntax_error :
  parse_tokens foo_list = Raised (Exception "Syntax error.")
  /\ index (final (parse_pair (new_parser foo_list))) = 2
  /\ result (parse_list 10 (new_parser foo_list))
     = Returned (Some (ListEntry "foo" ["1"; "2"; "three"]%string))
  /\ (forall stream d,
        parse_tokens stream = Returned (Some d) ->
        document_has_list d = false).
Proof.
  split; [reflexivity|]. split; [reflexivity|]. split; [reflexivity|].
  exact parse_never_returns_list.
Qed.

(** C2. A wrapped matcher that reports no match does not always leave the
    cursor where it found it: the mark is one field shared by all the
    wrappers, and a nested wrapped call overwrites it. [parse_pair] entered
    at index 0 of [foo: [ ...] returns no match with the cursor at index 2;
    [parse_block] entered at index 0 of [foo: {] followed by the end of the
    stream, a prefix that matches Key and fails the rest of Block, returns
    no match with the cursor at index 3. The key and value matchers, which
    call no other wrapped matcher, do restore the cursor. *)
Theorem backtrack_if_none_nested_mark :
  (index (new_parser foo_list) = 0
   /\ result (parse_pair (new_parser foo_list)) = Returned None
   /\ index (final (parse_pair (new_parser foo_list))) = 2)
  /\ (index (new_parser foo_open_block) = 0
      /\ result (parse_key (new_parser foo_open_block))
         = Returned (Some "foo"%string)
      /\ result (parse_block 5 (new_parser foo_open_block)) = Returned None
      /\ index (final (parse_block 5 (new_parser foo_open_block))) = 3)
  /\ (forall s,
        match parse_key s with
        | Return None s' => index s' = index s
        | _ => True
        end
        /\ match parse_value s with
           | Return None s' => index s' = index s
           | _ => True
           end).
Proof.
  split; [repeat split|]. split; [repeat split|].
  intro s. split.
  - pose proof (parse_key_spec s) as H.
    destruct (parse_key s) as [[k|] s'|e s'|s']; auto.
  - pose proof (parse_value_spec s) as H.
    destruct (parse_value s) as [[k|] s'|e s'|s']; auto.
Qed.

(** C3. A block without a name literal between its key and [BlockStart]
    does not parse: once the block is matched up to its [BlockEnd],
    [parse_block] reads the local [literal], which was never assigned, and
    the parse raises [UnboundLocalError], whatever the key and whatever
    follows the block. *)
Theorem parse_block_without_name_raises (k : string) (rest : list Token) :
  parse_tokens (Literal k :: Value :: BlockStart :: BlockEnd :: rest)
  = Raised UnboundLocalError.
Proof. reflexivity. Qed.

(** C5. On the token stream of [foo: bar ;;] the top-level parse returns the
    document with the single Pair entry mapping "foo" to "bar"; the [SqlEnd]
    token is consumed (the cursor ends on [StreamEnd], index 4) and is no
    part of the value. *)
Theorem parse_foo_bar_sql :
  parse_tokens foo_bar_sql = Returned (Some [PairEntry "foo" "bar"])
  /\ index (final (parse (new_parser foo_bar_sql))) = 4
  /\ nth_error foo_bar_sql 4 = Some StreamEnd.
Proof. repeat split; vm_compute; reflexivity. Qed.

(** C8. On the stream made of [StreamStart] and [StreamEnd] alone the
    top-level parse returns the empty document. *)
Theorem parse_empty_stream :
  parse_tokens [StreamStart; StreamEnd] = Returned (Some []).
Proof. reflexivity. Qed.

(** C4. On the token streams of [foo: []] and of [foo: [1,]] the top-level
    parse raises [Exception("Syntax error.")] and returns no document. The
    csv matcher accepts neither content: it reports no match when the first
    token is [ListEnd] (no value), and when a consumed [Comma] is followed
    by [ListEnd] (no value after the comma). *)
Theorem parse_empty_list_and_trailing_comma :
  parse_tokens foo_empty_list = Raised (Exception "Syntax error.")
  /\ parse_tokens foo_trailing_comma = Raised (Exception "Syntax error.")
  /\ (forall fuel s,
        nth_error (tokens s) (index s) = Some ListEnd ->
        result (parse_csv fuel s) = Returned None)
  /\ (forall fuel s v,
        nth_error (tokens s) (index s) = Some (Literal v) ->
        nth_error (tokens s) (index s + 1) = Some Comma ->
        nth_error (tokens s) (index s + 1 + 1) = Some ListEnd ->
        result (parse_csv (S fuel) s) = Returned None).
Proof.
  split; [reflexivity|]. split; [reflexivity|]. split.
  - intros fuel s E.
    unfold parse_csv, backtrack_if_none, csv_value, bind, set_mark.
    run.
  - intros fuel s v E0 E1 E2.
    unfold parse_csv, backtrack_if_none, csv_value, bind, set_mark.
    run. simpl. unfold csv_value, bind. run.
Qed.

(** C6. Constructing a parser raises [TypeError] exactly when some element
    of the sequence is not a token. Nothing else can be raised there, and
    [TypeError] is not the exception the parse raises on a syntax error. A
    sequence of tokens is accepted in whatever order they come, and the
    parser starts on it at index 0 with no mark: no parsing has begun. *)
Theorem Parser_init_type_check (stream : list PyObject) :
  (Parser_init stream = inl TypeError
   <-> exists o, In o stream /\ isinstance_Token o = false)
  /\ (forall e, Parser_init stream = inl e ->
                e = TypeError /\ e <> Exception "Syntax error.")
  /\ (forall self, Parser_init stream = inr self ->
                   List.map PyToken (tokens self) = stream
                   /\ index self = 0 /\ mark self = None).
Proof.
  unfold Parser_init.
  assert (H : match validate stream with
              | inl e =>
                  e = TypeError
                  /\ exists o, In o stream /\ isinstance_Token o = false
              | inr ts =>
                  List.map PyToken ts = stream
                  /\ forall o, In o stream -> isinstance_Token o = true
              end).
  { induction stream as [|o stream IH]; simpl.
    - split; [reflexivity | intros o []].
    - destruct o as [t| | |]; simpl;
        try (split; [reflexivity | eexists; split; [left; reflexivity|];
                                   reflexivity]).
      destruct (validate stream) as [e|ts].
      + destruct IH as (-> & o & Ho & Hf). split; [reflexivity|].
        exists o. split; [right|]; assumption.
      + destruct IH as (Hm & Hall). split.
        * simpl. rewrite Hm. reflexivity.
        * intros o [<-|Ho]; [reflexivity | apply Hall; assumption]. }
  destruct (validate stream) as [e|ts].
  - destruct H as (-> & Hex). split; [|split].
    + split; [intros _; exact Hex | reflexivity].
    + intros e E. inversion E. split; [reflexivity | discriminate].
    + intros self E. discriminate.
  - destruct H as (Hm & Hall). split; [|split].
    + split; [discriminate|].
      intros (o & Ho & Hf). rewrite (Hall o Ho) in Hf. discriminate.
    + intros e E. discriminate.
    + intros self E. inversion E. simpl. auto.
Qed.

(** C9. Whatever the token sequence and however far the parse gets (any
    fuel, so any point at which it is cut, and whether it returns or
    raises), the cursor and every value it has held lie between 0 and the
    length of the stream, and the stream is unchanged. The cursor-advancing
    operations move the cursor by one from an in-bounds position only:
    at or past the end of the stream they raise [IndexError] and leave the
    parser as it was. *)
Theorem cursor_in_bounds (stream : list Token) (fuel : nat) :
  let s' := final (parse_expression fuel (new_parser stream)) in
  (tokens s' = stream
   /\ index s' <= List.length stream
   /\ Forall (fun i => i <= List.length stream) (history s')
   /\ hd_error (history s') = Some (index s'))
  /\ in_bounds (final (parse (new_parser stream)))
  /\ (forall s,
        List.length (tokens s) <= index s ->
        advance s = Raise IndexError s
        /\ consume s = Raise IndexError s
        /\ consume_token_value s = Raise IndexError s)
  /\ (forall s,
        index s < List.length (tokens s) ->
        final (advance s) = with_index s (index s + 1)
        /\ final (consume s) = with_index s (index s + 1)
        /\ final (consume_token_value s) = with_index s (index s + 1)).
Proof.
  assert (B0 : in_bounds (new_parser stream)).
  { unfold in_bounds; simpl. repeat split; try lia.
    - intros m E; discriminate.
    - repeat constructor; lia. }
  cbv zeta. split; [|split; [|split]].
  - pose proof (stable_parse_expression (same_tokens_invariant stream) fuel
                  (new_parser stream) eq_refl) as Ht.
    pose proof (stable_parse_expression in_bounds_invariant fuel
                  (new_parser stream) B0) as (Hi & _ & Hh & Hd).
    unfold same_tokens in Ht. rewrite Ht in *. auto.
  - exact (stable_parse_expression in_bounds_invariant _ _ B0).
  - intros s Hs. apply nth_error_None in Hs.
    rewrite advance_eq, consume_eq, consume_token_value_eq, Hs. auto.
  - intros s Hs.
    rewrite advance_eq, consume_eq, consume_token_value_eq.
    destruct (nth_error (tokens s) (index s)) as [t|] eqn:E.
    + destruct (token_value t); auto.
    + apply nth_error_None in E. lia.
Qed.

(** C10. [parse_expression] never reports no match: for every state and
    every amount of fuel its outcome is not a returned [None], and with
    the fuel a state calls for (the tokens left, plus two), as in [parse],
    it returns a document or raises. So the branch of [parse_block] for a
    recursive expression parse without match is unreachable: whatever is
    put in that branch, the matcher is the same. *)
Theorem parse_expression_never_none (fuel : nat) (s : Parser) :
  match parse_expression fuel s with
  | Return None _ => False
  | _ => True
  end
  /\ (forall fuel', remaining s + 2 <= fuel' ->
        match parse_expression fuel' s with
        | Return (Some _) _ | Raise _ _ => True
        | _ => False
        end)
  /\ match parse s with
     | Return (Some _) _ | Raise _ _ => True
     | _ => False
     end
  /\ (forall on_none,
        parse_block_with on_none fuel s = parse_block (S fuel) s).
Proof.
  assert (H : forall fuel', remaining s + 2 <= fuel' ->
                match parse_expression fuel' s with
                | Return (Some _) _ | Raise _ _ => True
                | _ => False
                end).
  { intros fuel' Hf.
    pose proof (proj1 (expression_spec fuel') s) as He.
    destruct (parse_expression fuel' s) as [[d|] s'|e s'|s'];
      simpl in He; auto. lia. }
  split; [|split; [|split]].
  - pose proof (proj1 (expression_spec fuel) s) as He.
    destruct (parse_expression fuel s) as [[d|] s'|e s'|s']; simpl in He; auto.
  - exact H.
  - unfold parse. apply H. unfold remaining. lia.
  - intro on_none. apply parse_block_with_any.
Qed.

(** * Further properties of the matchers *)

(** ** The key, value and pair matchers, case by case *)

(** [parse_key] by the two tokens under the cursor: a literal followed by
    the [Value] token gives the literal's payload and moves the cursor by
    two; any other pair of tokens is no match and the cursor is back where
    it was; a stream that ends under the cursor, or right after a literal,
    raises [IndexError]. *)
Theorem parse_key_by_cases (s : Parser) :
  tokens (final (parse_key s)) = tokens s
  /\ match nth_error (tokens s) (index s),
           nth_error (tokens s) (index s + 1) with
     | Some (Literal k), Some Value =>
         result (parse_key s) = Returned (Some k)
         /\ index (final (parse_key s)) = index s + 2
     | Some (Literal _), Some _ =>
         result (parse_key s) = Returned None
         /\ index (final (parse_key s)) = index s
     | Some (Literal _), None => result (parse_key s) = Raised IndexError
     | Some _, _ =>
         result (parse_key s) = Returned None
         /\ index (final (parse_key s)) = index s
     | None, _ => result (parse_key s) = Raised IndexError
     end.
Proof.
  split; [apply framed_parse_key|].
  unfold parse_key, backtrack_if_none, bind, set_mark.
  run; split; try reflexivity; lia.
Qed.

(** [parse_value] by the tokens under the cursor: a quoted literal gives its
    payload and moves the cursor by one; a literal gives its payload and
    moves the cursor by one, or by two when [SqlEnd] follows; a literal that
    is the last token of the stream raises [IndexError] (the look-ahead for
    [SqlEnd] runs off the stream); any other token is no match, the cursor
    unmoved. *)
Theorem parse_value_by_cases (s : Parser) :
  tokens (final (parse_value s)) = tokens s
  /\ match nth_error (tokens s) (index s),
           nth_error (tokens s) (index s + 1) with
     | Some (QuotedLiteral v), _ =>
         result (parse_value s) = Returned (Some v)
         /\ index (final (parse_value s)) = index s + 1
     | Some (Literal v), Some SqlEnd =>
         result (parse_value s) = Returned (Some v)
         /\ index (final (parse_value s)) = index s + 2
     | Some (Literal v), Some _ =>
         result (parse_value s) = Returned (Some v)
         /\ index (final (parse_value s)) = index s + 1
     | Some (Literal _), None => result (parse_value s) = Raised IndexError
     | Some _, _ =>
         result (parse_value s) = Returned None
         /\ index (final (parse_value s)) = index s
     | None, _ => result (parse_value s) = Raised IndexError
     end.
Proof.
  split; [apply framed_parse_value|].
  unfold parse_value, backtrack_if_none, bind, set_mark.
  run.
  all: try (destruct (nth_error (tokens s) (index s + 1)) as [[]|]).
  all: try (split; [reflexivity | try reflexivity; lia]).
  all: try reflexivity.
Qed.

(** [parse_pair] returns the pair [k: v] exactly when a key production for
    [k] sits under the cursor and the token after it is a quoted literal
    [v], or a literal [v] that is not the last token of the stream. *)
Theorem parse_pair_exact (s : Parser) (k v : string) :
  result (parse_pair s) = Returned (Some (PairEntry k v))
  <-> key_at (tokens s) (index s) k
      /\ (nth_error (tokens s) (index s + 2) = Some (QuotedLiteral v)
          \/ (nth_error (tokens s) (index s + 2) = Some (Literal v)
              /\ index s + 3 < List.length (tokens s))).
Proof.
  unfold key_at.
  replace (index s + 2) with (index s + 1 + 1) by lia.
  replace (index s + 3) with (index s + 1 + 1 + 1) by lia.
  unfold parse_pair, parse_key, parse_value, backtrack_if_none, bind, set_mark.
  run.
  all: repeat match goal with
         | H : nth_error _ _ = None |- _ => apply nth_error_None in H
         | H : nth_error _ ?i = Some _ |- _ =>
             lazymatch goal with
             | _ : i < List.length _ |- _ => fail
             | _ => pose proof (nth_error_in_bounds _ _ H)
             end
         end.
  all: split;
    [ intro Hr; inversion Hr; subst; clear Hr
    | intros ((A & B) & [C | (C & D)]) ].
  all: try congruence.
  all: try lia.
  all: try (split; [split; reflexivity|]; auto).
Qed.

(** ** The block matcher *)

(** A block that [parse_block] returns was read from a key, a name literal,
    [BlockStart] and, as the last token consumed, [BlockEnd]; its name is
    the payload of the name literal, left out when that payload is the
    empty string. *)
Theorem parse_block_shape (fuel : nat) (s s' : Parser) (e : Entry) :
  parse_block fuel s = Return (Some e) s' ->
  exists k l d,
    e = BlockEntry k (if truthy l then Some l else None) d
    /\ key_at (tokens s) (index s) k
    /\ nth_error (tokens s) (index s + 2) = Some (Literal l)
    /\ nth_error (tokens s) (index s + 3) = Some BlockStart
    /\ nth_error (tokens s) (index s' - 1) = Some BlockEnd
    /\ index s + 4 < index s'
    /\ tokens s' = tokens s.
Proof.
  destruct fuel as [|fuel]; [discriminate|].
  pose proof (framed_parse_block (S fuel) s) as (Ft & _).
  intro H. rewrite H in Ft. simpl in Ft. revert H.
  replace (index s + 2) with (index s + 1 + 1) by lia.
  replace (index s + 3) with (index s + 1 + 1 + 1) by lia.
  rewrite parse_block_S.
  unfold parse_key, backtrack_if_none, bind, set_mark, key_at.
  run; try discriminate.
  all: match goal with
       | |- context [parse_expression ?f ?st] =>
           pose proof (framed_parse_expression f st) as (Fe & Fi);
           destruct (parse_expression f st) as [[d|] s2|e2 s2|s2]
       end; run; try discriminate.
  intro H; inversion H; subst; clear H. simpl in *.
  exists value, value0, d. rewrite Fe in *.
  replace (index s2 + 1 - 1) with (index s2) by lia.
  repeat split; auto. lia.
Qed.

Lemma parse_block_shape_example :
  let s := new_parser [Literal "foo"; Value; Literal "baz"; BlockStart;
                       BlockEnd; StreamEnd] in
  exists k l d,
    BlockEntry "foo" (Some "baz"%string) []
    = BlockEntry k (if truthy l then Some l else None) d
    /\ key_at (tokens s) (index s) k
    /\ nth_error (tokens s) (index s + 2) = Some (Literal l)
    /\ nth_error (tokens s) (index s + 3) = Some BlockStart
    /\ nth_error (tokens s) (index (final (parse_block 5 s)) - 1)
       = Some BlockEnd
    /\ index s + 4 < index (final (parse_block 5 s))
    /\ tokens (final (parse_block 5 s)) = tokens s.
Proof.
  exact (@parse_block_shape 5
           (new_parser [Literal "foo"; Value; Literal "baz"; BlockStart;
                        BlockEnd; StreamEnd])
           _ _ eq_refl).
Defined.

(** ** The expression loop *)

(** When the loop of [parse_expression] meets a token that is neither a
    literal nor [StreamEnd] nor [BlockEnd], it raises
    [Exception("Syntax error.")] with the cursor still on that token. At
    the top level this holds for the first token of the stream, and for
    the token after a leading [StreamStart] (a second [StreamStart]
    included). *)
Theorem syntax_error_on_token_that_starts_no_item
  (fuel : nat) (acc : Document) (s : Parser) (t : Token) :
  nth_error (tokens s) (index s) = Some t ->
  starts_no_item t = true ->
  (result (expression_loop (S (S fuel)) acc s)
   = Raised (Exception "Syntax error.")
   /\ index (final (expression_loop (S (S fuel)) acc s)) = index s)
  /\ (forall rest,
        t <> StreamStart ->
        parse_tokens (t :: rest) = Raised (Exception "Syntax error."))
  /\ (forall rest,
        parse_tokens (StreamStart :: t :: rest)
        = Raised (Exception "Syntax error.")).
Proof.
  intros E Ht. split; [|split].
  - rewrite expression_loop_S, parse_block_S.
    unfold parse_pair, parse_list, parse_key, backtrack_if_none, bind,
      set_mark.
    destruct t; try discriminate; run.
  - intros rest Hs. destruct t; try discriminate; try reflexivity.
    congruence.
  - intros rest. destruct t; try discriminate; reflexivity.
Qed.

Lemma syntax_error_on_comma :
  (result (expression_loop 2 [] (new_parser [Comma; StreamEnd]))
   = Raised (Exception "Syntax error.")
   /\ index (final (expression_loop 2 [] (new_parser [Comma; StreamEnd])))
      = 0)
  /\ (forall rest,
        Comma <> StreamStart ->
        parse_tokens (Comma :: rest) = Raised (Exception "Syntax error."))
  /\ (forall rest,
        parse_tokens (StreamStart :: Comma :: rest)
        = Raised (Exception "Syntax error.")).
Proof.
  exact (@syntax_error_on_token_that_starts_no_item 0 []
           (new_parser [Comma; StreamEnd]) Comma eq_refl eq_refl).
Defined.

Lemma parse_expression_0 : parse_expression 0 = out_of_fuel.
Proof. reflexivity. Qed.

Lemma bind_Return A B (m : M A) (k : A -> M B) s b s' :
  bind m k s = Return b s' ->
  exists a s1, m s = Return a s1 /\ k a s1 = Return b s'.
Proof.
  unfold bind. destruct (m s) as [a s1|e s1|s1]; try discriminate.
  intro H. exists a, s1. split; [reflexivity | exact H].
Qed.

Lemma check_Return tys s b s' :
  check tys s = Return b s' ->
  s' = s
  /\ exists t, nth_error (tokens s) (index s) = Some t
               /\ b = existsb (TokenType_eqb (type_of t)) tys.
Proof.
  rewrite check_eq.
  destruct (nth_error (tokens s) (index s)) as [t|]; try discriminate.
  intro H; inversion H; subst. split; [reflexivity|]. exists t. auto.
Qed.

Lemma expression_loop_ends_on_terminator fuel : forall acc s d s',
  expression_loop fuel acc s = Return (Some d) s' ->
  nth_error (tokens s') (index s') = Some StreamEnd
  \/ nth_error (tokens s') (index s') = Some BlockEnd.
Proof.
  induction fuel as [|fuel IH]; intros acc s d s' H; [discriminate|].
  rewrite expression_loop_S in H.
  apply bind_Return in H. destruct H as (stop & s0 & Hc & H).
  apply check_Return in Hc. destruct Hc as (-> & t & Et & ->).
  destruct (existsb (TokenType_eqb (type_of t))
              [StreamEndToken; BlockEndToken]) eqn:Eb.
  - inversion H; subst. rewrite Et.
    destruct t; try discriminate; auto.
  - apply bind_Return in H. destruct H as ([b|] & s1 & _ & H);
      [eapply IH; exact H|].
    apply bind_Return in H. destruct H as ([p|] & s2 & _ & H);
      [eapply IH; exact H|].
    apply bind_Return in H. destruct H as ([l|] & s3 & _ & H);
      [eapply IH; exact H | discriminate].
Qed.

(** When the top-level parse returns a document, the cursor rests on a
    [StreamEnd] or a [BlockEnd] token of the stream, which is left
    unconsumed with everything after it. A stream that holds neither token
    is therefore never parsed into a document: the parse raises. *)
Theorem parse_stops_on_terminator (stream : list Token) :
  (forall d s',
     parse (new_parser stream) = Return (Some d) s' ->
     nth_error stream (index s') = Some StreamEnd
     \/ nth_error stream (index s') = Some BlockEnd)
  /\ (forallb (fun t => negb (TokenType_eqb (type_of t) StreamEndToken
                          || TokenType_eqb (type_of t) BlockEndToken))
        stream = true ->
      exists e, parse_tokens stream = Raised e).
Proof.
  assert (H1 : forall d s',
             parse (new_parser stream) = Return (Some d) s' ->
             nth_error stream (index s') = Some StreamEnd
             \/ nth_error stream (index s') = Some BlockEnd).
  { intros d s' H.
    pose proof (framed_parse_expression (2 + List.length stream)
                  (new_parser stream)) as (Ft & _).
    unfold parse in H. simpl tokens in H. rewrite H in Ft. simpl in Ft.
    rewrite <- Ft.
    change (2 + List.length stream) with (S (S (List.length stream))) in H.
    rewrite parse_expression_S in H.
    unfold backtrack_if_none in H.
    apply bind_Return in H. destruct H as ([] & s0 & _ & H).
    apply bind_Return in H. destruct H as ([r|] & s1 & Hb & H).
    - inversion H; subst.
      apply bind_Return in Hb. destruct Hb as (b & s2 & _ & Hb).
      apply bind_Return in Hb. destruct Hb as ([] & s3 & _ & Hb).
      eapply expression_loop_ends_on_terminator; exact Hb.
    - apply bind_Return in H. destruct H as ([] & s2 & _ & H).
      discriminate. }
  split; [exact H1|].
  intro Hall. unfold parse_tokens, parse. simpl tokens.
  pose proof (proj1 (expression_spec (2 + List.length stream))
                (new_parser stream)) as He.
  destruct (parse_expression (2 + List.length stream) (new_parser stream))
    as [[d|] s'|e s'|s'] eqn:Ep; simpl in He.
  - exfalso. destruct (H1 d s' Ep) as [E|E];
      apply nth_error_In in E;
      rewrite forallb_forall in Hall; apply Hall in E; discriminate.
  - contradiction.
  - exists e. reflexivity.
  - unfold remaining in He. simpl in He. lia.
Qed.

(** ** Reading token sequences: the list and csv matchers *)

Lemma suffix_nth s j :
  nth_error (tokens s) (index s + j) = nth_error (suffix s) j.
Proof. unfold suffix. symmetry. apply nth_error_skipn. Qed.

Lemma suffix_moved s s' j :
  tokens s' = tokens s -> index s' = index s + j ->
  suffix s' = skipn j (suffix s).
Proof.
  unfold suffix. intros -> ->. rewrite skipn_skipn. f_equal. lia.
Qed.

Lemma suffix_nth0 s t rest :
  suffix s = t :: rest -> nth_error (tokens s) (index s) = Some t.
Proof.
  intro H. replace (index s) with (index s + 0) by lia.
  rewrite suffix_nth, H. reflexivity.
Qed.

Lemma suffix_nth1 s a t rest :
  suffix s = a :: t :: rest -> nth_error (tokens s) (index s + 1) = Some t.
Proof. intro H. rewrite suffix_nth, H. reflexivity. Qed.

Lemma suffix_nth2 s a b t rest :
  suffix s = a :: b :: t :: rest ->
  nth_error (tokens s) (index s + 1 + 1) = Some t.
Proof.
  intro H. replace (index s + 1 + 1) with (index s + 2) by lia.
  rewrite suffix_nth, H. reflexivity.
Qed.

Lemma suffix_nth3 s a b c t rest :
  suffix s = a :: b :: c :: t :: rest ->
  nth_error (tokens s) (index s + 1 + 1 + 1) = Some t.
Proof.
  intro H. replace (index s + 1 + 1 + 1) with (index s + 3) by lia.
  rewrite suffix_nth, H. reflexivity.
Qed.

Lemma csv_loop_complete cs : forall fuel values s post,
  suffix s = csv_tail cs ++ ListEnd :: post ->
  List.length cs < fuel ->
  exists s',
    csv_loop fuel values s = Return (Some (values ++ List.map snd cs)) s'
    /\ tokens s' = tokens s
    /\ index s' = index s + 2 * List.length cs
    /\ suffix s' = ListEnd :: post.
Proof.
  induction cs as [|[q v] cs IH]; intros fuel values s post Hs Hf;
    (destruct fuel as [|fuel]; [lia|]); simpl in Hs.
  - pose proof (suffix_nth0 _ Hs) as E0.
    simpl. unfold bind. run.
    eexists. rewrite app_nil_r. repeat split; [simpl; lia | exact Hs].
  - pose proof (suffix_nth0 _ Hs) as E0.
    pose proof (suffix_nth1 _ Hs) as E1.
    simpl. unfold csv_value, bind. unfold content_token in E1.
    destruct q; simpl in E1; run.
    all: match goal with
         | |- context [csv_loop ?f ?vs ?st] =>
             destruct (IH f vs st post) as (s' & Hl & Ht & Hi & Hx);
             [ rewrite (@suffix_moved s st 2), Hs; [reflexivity| |];
               simpl; try reflexivity; lia
             | simpl in Hf; lia
             | rewrite Hl; exists s'; simpl in *;
               rewrite <- app_assoc;
               repeat split; [congruence | lia | exact Hx] ]
         end.
Qed.

Lemma suffix_nth4 s a b c d t rest :
  suffix s = a :: b :: c :: d :: t :: rest ->
  nth_error (tokens s) (index s + 1 + 1 + 1 + 1) = Some t.
Proof.
  intro H. replace (index s + 1 + 1 + 1 + 1) with (index s + 4) by lia.
  rewrite suffix_nth, H. reflexivity.
Qed.

Lemma length_csv_tail cs : List.length (csv_tail cs) = 2 * List.length cs.
Proof. induction cs as [|c cs IH]; simpl; [reflexivity|]. rewrite IH. lia. Qed.

(** [parse_list] entered on the tokens of a list (a key, a name literal or
    none, [ListStart], one element or more separated by commas, [ListEnd])
    returns the List entry of the key with the payloads of the elements in
    their order, quoted or not, and leaves the cursor right after
    [ListEnd]. The name literal is consumed and does not show in the
    entry. *)
Theorem parse_list_complete (k : string) (name : option string)
  (c : bool * string) (cs : list (bool * string))
  (fuel : nat) (s : Parser) (post : list Token) :
  suffix s = list_tokens k name c cs ++ post ->
  List.length cs < fuel ->
  result (parse_list fuel s)
  = Returned (Some (ListEntry k (List.map snd (c :: cs))))
  /\ index (final (parse_list fuel s))
     = index s + List.length (list_tokens k name c cs)
  /\ tokens (final (parse_list fuel s)) = tokens s.
Proof.
  intros Hs Hf. unfold list_tokens in *.
  rewrite !length_cons, !length_app, !length_cons, length_app,
    length_csv_tail.
  destruct c as [q v]. unfold content_token in Hs.
  destruct name as [n|]; destruct q; simpl in Hs |- *.
  all: rewrite <- app_assoc in Hs; simpl in Hs.
  all: pose proof (suffix_nth0 _ Hs) as E0;
    pose proof (suffix_nth1 _ Hs) as E1;
    pose proof (suffix_nth2 _ Hs) as E2;
    pose proof (suffix_nth3 _ Hs) as E3;
    try pose proof (suffix_nth4 _ Hs) as E4.
  all: unfold parse_list, parse_key, parse_csv, csv_value, backtrack_if_none,
         bind, set_mark; run.
  all: match goal with
       | |- context [csv_loop ?f ?vs ?st] =>
           destruct (@csv_loop_complete cs f vs st post)
             as (s' & Hl & Ht & Hi & Hx);
           [ first [ rewrite (@suffix_moved s st 5), Hs;
                     [reflexivity | reflexivity | simpl; lia]
                   | rewrite (@suffix_moved s st 4), Hs;
                     [reflexivity | reflexivity | simpl; lia] ]
           | assumption
           | rewrite Hl; pose proof (suffix_nth0 _ Hx) as Ex ]
       end; run.
  all: simpl in *; repeat split; try congruence; lia.
Qed.

Lemma parse_list_complete_example :
  let s := new_parser foo_list in
  result (parse_list 3 s)
  = Returned (Some (ListEntry "foo"
                      (List.map snd [(false, "1"); (false, "2");
                                     (true, "three")]%string)))
  /\ index (final (parse_list 3 s))
     = index s
       + List.length (list_tokens "foo" None (false, "1"%string)
                        [(false, "2"); (true, "three")]%string)
  /\ tokens (final (parse_list 3 s)) = tokens s.
Proof.
  exact (@parse_list_complete "foo" None (false, "1"%string)
           [(false, "2"); (true, "three")]%string 3
           (new_parser foo_list) [StreamEnd] eq_refl
           (le_n 3)).
Defined.

(** ** Reading token sequences: pairs and named blocks *)

Lemma derives_head toks d :
  derives toks d ->
  toks = [] \/ exists k rest, toks = Literal k :: Value :: rest.
Proof.
  intros []; [left; reflexivity | right; eauto | right; eauto | right; eauto].
Qed.

Lemma suffix_after s s' pre rest :
  suffix s = pre ++ rest ->
  tokens s' = tokens s ->
  index s' = index s + List.length pre ->
  suffix s' = rest.
Proof.
  intros Hs Ht Hi. rewrite (@suffix_moved s s' _ Ht Hi), Hs.
  rewrite skipn_app, skipn_all, Nat.sub_diag. reflexivity.
Qed.

(** The token that follows a complete sequence of items: the first token of
    the next item, a literal, or the terminator. *)
Lemma derives_next toks d t post :
  derives toks d -> ends_expression t = true ->
  exists nxt rest,
    toks ++ t :: post = nxt :: rest
    /\ (ends_expression nxt = true \/ exists k, nxt = Literal k).
Proof.
  intros H Ht. destruct (derives_head H) as [->|(k & r & ->)].
  - exists t, post. split; [reflexivity | left; exact Ht].
  - exists (Literal k), (Value :: r ++ t :: post).
    split; [reflexivity | right; eauto].
Qed.

Arguments reads : simpl never.

Lemma reads_step acc e d s s1 n m o :
  reads (acc ++ [e]) d s1 n o ->
  tokens s1 = tokens s ->
  index s <= index s1 ->
  m = index s1 - index s + n ->
  reads acc (e :: d) s m o.
Proof.
  unfold reads. destruct o as [[r|] s'|e' s'|s']; auto.
  intros (-> & Ht & Hi) Ht1 Hi1 ->. rewrite <- app_assoc. simpl.
  repeat split; [congruence | lia].
Qed.

Lemma loop_complete toks d :
  derives toks d ->
  forall fuel acc s t post,
    suffix s = toks ++ t :: post ->
    ends_expression t = true ->
    reads acc d s (List.length toks) (expression_loop fuel acc s).
Proof.
  induction 1 as [|k vt v toks d Hv Hd IH|k n toks1 d1 toks d Hd1 IH1 Hd IH
                 |k n toks1 d1 toks d Hd1 IH1 Hd IH];
    intros fuel acc s t post Hs Ht;
    (destruct fuel as [|fuel]; [exact I|]).
  - simpl in Hs. pose proof (suffix_nth0 _ Hs) as E0.
    rewrite expression_loop_S. unfold bind. run.
    destruct t; try discriminate; unfold reads; simpl; rewrite app_nil_r;
      repeat split; lia.
  - assert (Hs0 : suffix s = (Literal k :: Value :: vt) ++ toks ++ t :: post)
      by (rewrite Hs; simpl; rewrite <- app_assoc; reflexivity).
    destruct (@derives_next toks d t post Hd Ht) as (nxt & rest & Hn & Hnxt).
    pose proof Hs0 as Hs1. rewrite Hn in Hs1.
    rewrite expression_loop_S.
    destruct fuel as [|fuel];
      [unfold bind; inversion Hv; subst; simpl in Hs1;
       pose proof (suffix_nth0 _ Hs1) as E0; run; exact I|].
    rewrite parse_block_S.
    unfold parse_pair, parse_key, parse_value, backtrack_if_none, bind,
      set_mark.
    inversion Hv; subst; simpl in Hs1.
    all: pose proof (suffix_nth0 _ Hs1) as E0;
      pose proof (suffix_nth1 _ Hs1) as E1;
      pose proof (suffix_nth2 _ Hs1) as E2;
      pose proof (suffix_nth3 _ Hs1) as E3;
      try pose proof (suffix_nth4 _ Hs1) as E4.
    all: destruct Hnxt as [He|(k' & ->)];
      [destruct nxt; try discriminate|]; run.
    all: match goal with
         | |- reads _ _ _ _ (expression_loop ?f ?a ?st) =>
             eapply (@reads_step acc _ d s st);
             [ apply (IH f a st t post);
               [ apply (@suffix_after s st _ _ Hs0);
                 [reflexivity | simpl; lia]
               | exact Ht ]
             | reflexivity
             | simpl; lia
             | simpl; rewrite ?length_app; simpl; lia ]
         end.
  - assert (Hs0 : suffix s
                  = [Literal k; Value; Literal n; BlockStart]
                    ++ toks1 ++ BlockEnd :: toks ++ t :: post)
      by (rewrite Hs; simpl; rewrite <- app_assoc; reflexivity).
    destruct (@derives_next toks1 d1 BlockEnd (toks ++ t :: post) Hd1 eq_refl)
      as (nxt & rest & Hn & Hnxt).
    pose proof Hs0 as Hs1. rewrite Hn in Hs1. simpl in Hs1.
    pose proof (suffix_nth0 _ Hs1) as E0;
      pose proof (suffix_nth1 _ Hs1) as E1;
      pose proof (suffix_nth2 _ Hs1) as E2;
      pose proof (suffix_nth3 _ Hs1) as E3;
      pose proof (suffix_nth4 _ Hs1) as E4.
    rewrite expression_loop_S.
    destruct fuel as [|fuel]; [unfold bind; run; exact I|].
    rewrite parse_block_S.
    unfold parse_key, backtrack_if_none, bind, set_mark. run.
    destruct fuel as [|fuel]; [exact I|].
    rewrite parse_expression_S.
    unfold backtrack_if_none, bind, set_mark.
    destruct Hnxt as [He|(k' & ->)];
      [destruct nxt; try discriminate|]; run.
    all: match goal with
         | |- context [expression_loop ?f [] ?st] =>
             pose proof (IH1 f [] st BlockEnd (toks ++ t :: post)) as Hr;
             destruct (expression_loop f [] st) as [[r|] s5|e5 s5|s5];
             unfold reads in Hr;
             [ destruct Hr as (-> & Ht5 & Hi5);
               [ apply (@suffix_after s st _ _ Hs0);
                 [reflexivity | simpl; lia]
               | reflexivity | ]
             | exfalso; apply Hr;
               [ apply (@suffix_after s st _ _ Hs0);
                 [reflexivity | simpl; lia]
               | reflexivity ]
             | exfalso; apply Hr;
               [ apply (@suffix_after s st _ _ Hs0);
                 [reflexivity | simpl; lia]
               | reflexivity ]
             | exact I ]
         end.
    all: simpl in Ht5, Hi5.
    all: assert (Hs5 : suffix s5 = BlockEnd :: toks ++ t :: post)
      by (apply (@suffix_after s s5
                   ([Literal k; Value; Literal n; BlockStart] ++ toks1));
          [ rewrite <- app_assoc; exact Hs0
          | exact Ht5
          | rewrite length_app; simpl; lia ]).
    all: pose proof (suffix_nth0 _ Hs5) as E5; run.
    all: match goal with
         | |- reads _ _ _ _ (expression_loop ?f ?a ?st) =>
             eapply (@reads_step acc _ d s st);
             [ apply (IH f a st t post);
               [ apply (@suffix_after s st
                          ([Literal k; Value; Literal n; BlockStart]
                           ++ toks1 ++ [BlockEnd]));
                 [ rewrite Hs0; simpl; rewrite <- !app_assoc; reflexivity
                 | simpl; exact Ht5
                 | simpl; rewrite length_app; simpl; lia ]
               | exact Ht ]
             | simpl; exact Ht5
             | simpl; lia
             | simpl; rewrite ?length_app; simpl; lia ]
         end.
  - assert (Hs0 : suffix s
                  = [Literal k; Value; Literal n; BlockStart; StreamStart]
                    ++ toks1 ++ BlockEnd :: toks ++ t :: post)
      by (rewrite Hs; simpl; rewrite <- app_assoc; reflexivity).
    pose proof Hs0 as Hs1. simpl in Hs1.
    pose proof (suffix_nth0 _ Hs1) as E0;
      pose proof (suffix_nth1 _ Hs1) as E1;
      pose proof (suffix_nth2 _ Hs1) as E2;
      pose proof (suffix_nth3 _ Hs1) as E3;
      pose proof (suffix_nth4 _ Hs1) as E4.
    rewrite expression_loop_S.
    destruct fuel as [|fuel]; [unfold bind; run; exact I|].
    rewrite parse_block_S.
    unfold parse_key, backtrack_if_none, bind, set_mark. run.
    destruct fuel as [|fuel]; [exact I|].
    rewrite parse_expression_S.
    unfold backtrack_if_none, bind, set_mark. run.
    match goal with
    | |- context [expression_loop ?f [] ?st] =>
        pose proof (IH1 f [] st BlockEnd (toks ++ t :: post)) as Hr;
        destruct (expression_loop f [] st) as [[r|] s5|e5 s5|s5];
        unfold reads in Hr;
        [ destruct Hr as (-> & Ht5 & Hi5);
          [ apply (@suffix_after s st _ _ Hs0);
            [reflexivity | simpl; lia]
          | reflexivity | ]
        | exfalso; apply Hr;
          [ apply (@suffix_after s st _ _ Hs0);
            [reflexivity | simpl; lia]
          | reflexivity ]
        | exfalso; apply Hr;
          [ apply (@suffix_after s st _ _ Hs0);
            [reflexivity | simpl; lia]
          | reflexivity ]
        | exact I ]
    end.
    simpl in Ht5, Hi5.
    assert (Hs5 : suffix s5 = BlockEnd :: toks ++ t :: post)
      by (apply (@suffix_after s s5
                   ([Literal k; Value; Literal n; BlockStart; StreamStart]
                    ++ toks1));
          [ rewrite <- app_assoc; exact Hs0
          | exact Ht5
          | rewrite length_app; simpl; lia ]).
    pose proof (suffix_nth0 _ Hs5) as E5. run.
    match goal with
    | |- reads _ _ _ _ (expression_loop ?f ?a ?st) =>
        eapply (@reads_step acc _ d s st);
        [ apply (IH f a st t post);
          [ apply (@suffix_after s st
                     ([Literal k; Value; Literal n; BlockStart; StreamStart]
                      ++ toks1 ++ [BlockEnd]));
            [ rewrite Hs0; simpl; rewrite <- !app_assoc; reflexivity
            | simpl; exact Ht5
            | simpl; rewrite length_app; simpl; lia ]
          | exact Ht ]
        | simpl; exact Ht5
        | simpl; lia
        | simpl; rewrite ?length_app; simpl; lia ]
    end.
Qed.

(** Every token sequence made of pairs and of named blocks, followed by
    [StreamEnd] or [BlockEnd], with or without a leading [StreamStart], is
    parsed into the document it stands for, whatever comes after the
    terminator; the cursor is left on the terminator. *)
Theorem parse_complete (toks : list Token) (d : Document) (t : Token)
  (rest : list Token) :
  derives toks d ->
  ends_expression t = true ->
  (parse_tokens (toks ++ t :: rest) = Returned (Some d)
   /\ index (final (parse (new_parser (toks ++ t :: rest))))
      = List.length toks)
  /\ (parse_tokens (StreamStart :: toks ++ t :: rest) = Returned (Some d)
      /\ index (final (parse (new_parser (StreamStart :: toks ++ t :: rest))))
         = 1 + List.length toks).
Proof.
  intros Hd Ht.
  destruct (@derives_next toks d t rest Hd Ht) as (nxt & r & Hn & Hnxt).
  split.
  - unfold parse_tokens, parse. simpl tokens.
    set (stream := toks ++ t :: rest).
    set (s0 := with_mark (new_parser stream) 0).
    assert (Hs : suffix s0 = toks ++ t :: rest) by reflexivity.
    pose proof (proj1 (proj2 (expression_spec (S (List.length stream))))
                  [] s0) as Hf.
    pose proof (@loop_complete toks d Hd (S (List.length stream)) [] s0 t
                  rest Hs Ht) as Hr.
    change (2 + List.length stream) with (S (S (List.length stream))).
    rewrite parse_expression_S.
    unfold backtrack_if_none, bind, set_mark.
    assert (E0 : nth_error (tokens s0) (index s0) = Some nxt)
      by (apply (@suffix_nth0 s0 nxt r); rewrite Hs; exact Hn).
    change (with_mark (new_parser stream) (index (new_parser stream)))
      with s0.
    step. rewrite E0.
    assert (Hb : existsb (TokenType_eqb (type_of nxt)) [StreamStartToken]
                 = false)
      by (destruct Hnxt as [He|(k' & ->)];
          [destruct nxt; try discriminate|]; reflexivity).
    rewrite Hb. cbn.
    destruct (expression_loop (S (List.length stream)) [] s0)
      as [[x|] s'|e s'|s']; unfold reads in Hr; simpl in Hf, Hr |- *;
      try contradiction.
    + destruct Hr as (-> & _ & ->). split; reflexivity.
    + unfold remaining in Hf. simpl in Hf. lia.
  - unfold parse_tokens, parse. simpl tokens.
    set (stream := StreamStart :: toks ++ t :: rest).
    set (s1 := with_index (with_mark (new_parser stream) 0) 1).
    assert (Hs : suffix s1 = toks ++ t :: rest) by reflexivity.
    pose proof (proj1 (proj2 (expression_spec (S (List.length stream))))
                  [] s1) as Hf.
    pose proof (@loop_complete toks d Hd (S (List.length stream)) [] s1 t
                  rest Hs Ht) as Hr.
    change (2 + List.length stream) with (S (S (List.length stream))).
    rewrite parse_expression_S.
    unfold backtrack_if_none, bind, set_mark.
    assert (E0 : nth_error (tokens (new_parser stream))
                   (index (new_parser stream))
                 = Some StreamStart) by reflexivity.
    step. rewrite E0. cbn.
    change (expression_loop _ [] _)
      with (expression_loop (S (List.length stream)) [] s1).
    destruct (expression_loop (S (List.length stream)) [] s1)
      as [[x|] s'|e s'|s']; unfold reads in Hr; simpl in Hf, Hr |- *;
      try contradiction.
    + destruct Hr as (-> & _ & ->). split; reflexivity.
    + unfold remaining in Hf. simpl in Hf. lia.
Qed.

Lemma parse_complete_view :
  let toks :=
    [Literal "view"; Value; Literal "orders"; BlockStart;
     Literal "sql"; Value; Literal "x"; SqlEnd;
     Literal "label"; Value; QuotedLiteral "y";
     BlockEnd; Literal "n"; Value; Literal "1"]%string in
  let d :=
    [BlockEntry "view" (Some "orders")
       [PairEntry "sql" "x"; PairEntry "label" "y"];
     PairEntry "n" "1"]%string in
  (parse_tokens (toks ++ StreamEnd :: [Comma]) = Returned (Some d)
   /\ index (final (parse (new_parser (toks ++ StreamEnd :: [Comma]))))
      = List.length toks)
  /\ (parse_tokens (StreamStart :: toks ++ StreamEnd :: [Comma])
      = Returned (Some d)
      /\ index (final (parse (new_parser
                                (StreamStart :: toks ++ StreamEnd :: [Comma]))))
         = 1 + List.length toks).
Proof.
  exact (@parse_complete _ _ StreamEnd [Comma]
           (derives_block "view" "orders"
              (derives_pair "sql" (value_sql "x")
                 (derives_pair "label" (value_quoted "y") derives_nil))
              (derives_pair "n" (value_literal "1") derives_nil))
           eq_refl).
Defined.

(** ** Streams that hold a [StreamEnd] token *)

Arguments clean : simpl never.

Ltac away e :=
  repeat match goal with
    | E : nth_error ?l ?i = Some _, He : nth_error ?l e = Some StreamEnd
      |- _ =>
        lazymatch goal with
        | _ : i <> e |- _ => fail
        | _ =>
            assert (i <> e)
              by (let X := fresh in
                  intro X; rewrite X in E; rewrite He in E; discriminate)
        end
    | E : nth_error _ _ = None |- _ => apply nth_error_None in E
    end;
  repeat match goal with
    | He : nth_error _ e = Some StreamEnd |- _ =>
        lazymatch goal with
        | _ : e < _ |- _ => fail
        | _ => pose proof (nth_error_in_bounds _ _ He)
        end
    end.

Ltac finish e :=
  unfold clean, ahead, marked, syntax_or_unbound in *; cbn in *;
  away e;
  repeat match goal with
    | |- _ /\ _ => split
    | |- exists _, Some _ = Some _ /\ _ => eexists; split; [reflexivity|]
    end;
  try assumption; try lia; auto;
  try solve [eexists; split; [eassumption | lia]].

Ltac runm :=
  cbn;
  repeat first
    [ progress step
    | progress look
    | match goal with
      | H : mark ?s = Some _ |- context [jump_to_mark _] =>
          unfold jump_to_mark; cbn [mark with_index with_mark];
          rewrite H; cbn
      | |- context [jump_to_mark ?s] =>
          unfold jump_to_mark; destruct (mark s); cbn
      end ];
  cbn.

Section Terminated.

Variable e : nat.

Lemma clean_parse_key s : ahead e s -> clean e (parse_key s).
Proof.
  intros (Hi & He).
  unfold parse_key, backtrack_if_none, bind, set_mark.
  runm; finish e.
Qed.

Lemma clean_parse_value s : ahead e s -> clean e (parse_value s).
Proof.
  intros (Hi & He).
  unfold parse_value, backtrack_if_none, bind, set_mark.
  runm; finish e.
Qed.

Lemma clean_parse_pair s : ahead e s -> clean e (parse_pair s).
Proof.
  intros (Hi & He).
  unfold parse_pair, parse_key, parse_value, backtrack_if_none, bind,
    set_mark.
  runm; finish e.
Qed.

Lemma clean_csv_loop fuel : forall values s,
  ahead e s -> marked e s -> clean e (csv_loop fuel values s).
Proof.
  induction fuel as [|fuel IH]; intros values s (Hi & He) (m & Hm & Hle).
  - finish e.
  - simpl. unfold csv_value, bind. runm.
    all: try match goal with
           | |- clean e (csv_loop _ _ ?st) =>
               apply IH; [split; cbn | exists m; cbn; split]
           end.
    all: finish e.
Qed.

Lemma clean_parse_csv fuel s : ahead e s -> clean e (parse_csv fuel s).
Proof.
  intros (Hi & He).
  unfold parse_csv, csv_value, backtrack_if_none, bind, set_mark. runm.
  all: try match goal with
         | |- context [csv_loop ?f ?vs ?st] =>
             let H := fresh "Hc" in
             assert (H : clean e (csv_loop f vs st))
               by (apply clean_csv_loop;
                   [split; cbn | eexists; cbn; split; [reflexivity|]];
                   finish e);
             destruct (csv_loop f vs st) as [[r|] s1|err s1|s1];
             destruct H as ((Hi1 & He1) & Hx);
             try destruct Hx as (m1 & Hm1 & Hle1)
         end.
  all: runm; finish e.
Qed.

Lemma clean_parse_list fuel s : ahead e s -> clean e (parse_list fuel s).
Proof.
  intros (Hi & He).
  unfold parse_list, parse_key, backtrack_if_none, bind, set_mark. runm.
  all: try match goal with
         | |- context [parse_csv ?f ?st] =>
             let H := fresh "Hc" in
             assert (H : clean e (parse_csv f st))
               by (apply clean_parse_csv; split; cbn; finish e);
             destruct (parse_csv f st) as [[r|] s1|err s1|s1];
             destruct H as ((Hi1 & He1) & Hx);
             try destruct Hx as (m1 & Hm1 & Hle1)
         end.
  all: runm; finish e.
Qed.

Lemma clean_expression fuel :
  (forall s, ahead e s -> clean e (parse_expression fuel s))
  /\ (forall acc s, ahead e s -> marked e s ->
                    clean e (expression_loop fuel acc s))
  /\ (forall s, ahead e s -> clean e (parse_block fuel s)).
Proof.
  induction fuel as [|fuel (IHe & IHl & IHb)].
  - split; [|split]; intros; (split; [assumption | exact I]).
  - split; [|split].
    + intros s (Hi & He). rewrite parse_expression_S.
      unfold backtrack_if_none, bind, set_mark. runm.
      all: try match goal with
             | |- context [expression_loop ?f ?a ?st] =>
                 let H := fresh "Hc" in
                 assert (H : clean e (expression_loop f a st))
                   by (apply IHl;
                       [split; cbn | eexists; cbn; split; [reflexivity|]];
                       finish e);
                 destruct (expression_loop f a st) as [[r|] s1|err s1|s1];
                 destruct H as ((Hi1 & He1) & Hx);
                 try destruct Hx as (m1 & Hm1 & Hle1)
             end.
      all: runm; finish e.
    + intros acc s (Hi & He) (m & Hm & Hle). rewrite expression_loop_S.
      unfold bind. runm.
      all: try solve [finish e].
      all: pose proof (IHb s (conj Hi He)) as Hb;
        destruct (parse_block fuel s) as [[b|] s1|err s1|s1];
        destruct Hb as ((Hi1 & He1) & Hx1); cbn in *;
        [ apply IHl; [split; assumption | exact Hx1]
        | | finish e | finish e ].
      all: pose proof (@clean_parse_pair s1 (conj Hi1 He1)) as Hp;
        destruct (parse_pair s1) as [[b|] s2|err s2|s2];
        destruct Hp as ((Hi2 & He2) & Hx2); cbn in *;
        [ apply IHl; [split; assumption | exact Hx2]
        | | finish e | finish e ].
      all: pose proof (@clean_parse_list fuel s2 (conj Hi2 He2)) as Hl;
        destruct (parse_list fuel s2) as [[b|] s3|err s3|s3];
        destruct Hl as ((Hi3 & He3) & Hx3); cbn in *;
        [ apply IHl; [split; assumption | exact Hx3]
        | finish e | finish e | finish e ].
    + intros s (Hi & He). rewrite parse_block_S.
      unfold parse_key, backtrack_if_none, bind, set_mark. runm.
      all: try match goal with
             | |- context [parse_expression ?f ?st] =>
                 let H := fresh "Hc" in
                 assert (H : clean e (parse_expression f st))
                   by (apply IHe; split; cbn; finish e);
                 destruct (parse_expression f st) as [[r|] s1|err s1|s1];
                 destruct H as ((Hi1 & He1) & Hx);
                 try destruct Hx as (m1 & Hm1 & Hle1)
             end.
      all: runm; finish e.
Qed.

End Terminated.

(** On a stream that holds a [StreamEnd] token, the parse returns a
    document, or raises [Exception("Syntax error.")] or
    [UnboundLocalError], and nothing else: no [IndexError], since the
    cursor never gets past that token (no matcher consumes a
    [StreamEnd]), and no [TypeError] or [AttributeError]. *)
Theorem parse_of_terminated_stream (stream : list Token) (e : nat) :
  nth_error stream e = Some StreamEnd ->
  match parse_tokens stream with
  | Returned (Some _) => True
  | Raised err => err = Exception "Syntax error." \/ err = UnboundLocalError
  | _ => False
  end
  /\ index (final (parse (new_parser stream))) <= e.
Proof.
  intro He. unfold parse_tokens, parse. simpl tokens.
  assert (Ha : ahead e (new_parser stream)) by (split; [simpl; lia | exact He]).
  pose proof (proj1 (clean_expression e (2 + List.length stream))
                (new_parser stream) Ha) as Hc.
  pose proof (proj1 (expression_spec (2 + List.length stream))
                (new_parser stream)) as Hs.
  destruct (parse_expression (2 + List.length stream) (new_parser stream))
    as [[d|] s'|err s'|s']; destruct Hc as ((Hi & _) & Hx);
    simpl in Hs, Hi, Hx |- *; split; auto.
  unfold remaining in Hs. simpl in Hs. lia.
Qed.

Lemma parse_of_terminated_stream_foo_bar_sql :
  match parse_tokens foo_bar_sql with
  | Returned (Some _) => True
  | Raised err => err = Exception "Syntax error." \/ err = UnboundLocalError
  | _ => False
  end
  /\ index (final (parse (new_parser foo_bar_sql))) <= 4.
Proof. exact (@parse_of_terminated_stream foo_bar_sql 4 eq_refl). Defined.

(** ** The exceptions of a parse *)

Arguments tidy : simpl never.

Ltac neat :=
  unfold tidy, expected_error in *; cbn in *; auto;
  try solve [eexists; reflexivity];
  try solve [eexists; eassumption].

Lemma tidy_parse_key s : tidy (parse_key s).
Proof.
  unfold parse_key, backtrack_if_none, bind, set_mark. runm; neat.
Qed.

Lemma tidy_parse_value s : tidy (parse_value s).
Proof.
  unfold parse_value, backtrack_if_none, bind, set_mark. runm; neat.
Qed.

Lemma tidy_parse_pair s : tidy (parse_pair s).
Proof.
  unfold parse_pair, parse_key, parse_value, backtrack_if_none, bind,
    set_mark.
  runm; neat.
Qed.

Lemma tidy_csv_loop fuel : forall values s m,
  mark s = Some m -> tidy (csv_loop fuel values s).
Proof.
  induction fuel as [|fuel IH]; intros values s m Hm.
  - neat.
  - simpl. unfold csv_value, bind. runm.
    all: try match goal with
           | |- tidy (csv_loop _ _ _) => apply (IH _ _ m); cbn
           end.
    all: neat.
Qed.

Lemma tidy_parse_csv fuel s : tidy (parse_csv fuel s).
Proof.
  unfold parse_csv, csv_value, backtrack_if_none, bind, set_mark. runm.
  all: try match goal with
         | |- context [csv_loop ?f ?vs ?st] =>
             let H := fresh "Hc" in
             assert (H : tidy (csv_loop f vs st))
               by (apply (@tidy_csv_loop f vs st (index s)); reflexivity);
             destruct (csv_loop f vs st) as [[r|] s1|err s1|s1];
             unfold tidy in H; try destruct H as (m1 & Hm1)
         end.
  all: runm; neat.
Qed.

Lemma tidy_parse_list fuel s : tidy (parse_list fuel s).
Proof.
  unfold parse_list, parse_key, backtrack_if_none, bind, set_mark. runm.
  all: try match goal with
         | |- context [parse_csv ?f ?st] =>
             pose proof (tidy_parse_csv f st) as Hc;
             destruct (parse_csv f st) as [[r|] s1|err s1|s1];
             unfold tidy in Hc; try destruct Hc as (m1 & Hm1)
         end.
  all: runm; neat.
Qed.

Lemma tidy_expression fuel :
  (forall s, tidy (parse_expression fuel s))
  /\ (forall acc s m, mark s = Some m -> tidy (expression_loop fuel acc s))
  /\ (forall s, tidy (parse_block fuel s)).
Proof.
  induction fuel as [|fuel (IHe & IHl & IHb)].
  - split; [|split]; intros; exact I.
  - split; [|split].
    + intros s. rewrite parse_expression_S.
      unfold backtrack_if_none, bind, set_mark. runm.
      all: try match goal with
             | |- context [expression_loop ?f ?a ?st] =>
                 let H := fresh "Hc" in
                 assert (H : tidy (expression_loop f a st))
                   by (apply (IHl a st (index s)); reflexivity);
                 destruct (expression_loop f a st) as [[r|] s1|err s1|s1];
                 unfold tidy in H; try destruct H as (m1 & Hm1)
             end.
      all: runm; neat.
    + intros acc s m Hm. rewrite expression_loop_S.
      unfold bind. runm.
      all: try solve [neat].
      all: pose proof (IHb s) as Hb;
        destruct (parse_block fuel s) as [[b|] s1|err s1|s1];
        unfold tidy in Hb; cbn in *;
        [ destruct Hb as (m1 & Hm1); apply (IHl _ _ m1 Hm1)
        | destruct Hb as (m1 & Hm1) | neat | neat ].
      all: pose proof (tidy_parse_pair s1) as Hp;
        destruct (parse_pair s1) as [[b|] s2|err s2|s2];
        unfold tidy in Hp; cbn in *;
        [ destruct Hp as (m2 & Hm2); apply (IHl _ _ m2 Hm2)
        | destruct Hp as (m2 & Hm2) | neat | neat ].
      all: pose proof (tidy_parse_list fuel s2) as Hl;
        destruct (parse_list fuel s2) as [[b|] s3|err s3|s3];
        unfold tidy in Hl; cbn in *;
        [ destruct Hl as (m3 & Hm3); apply (IHl _ _ m3 Hm3)
        | neat | neat | neat ].
    + intros s. rewrite parse_block_S.
      unfold parse_key, backtrack_if_none, bind, set_mark. runm.
      all: try match goal with
             | |- context [parse_expression ?f ?st] =>
                 pose proof (IHe st) as Hc;
                 destruct (parse_expression f st) as [[r|] s1|err s1|s1];
                 unfold tidy in Hc; try destruct Hc as (m1 & Hm1)
             end.
      all: runm; neat.
Qed.

(** Whatever the stream, a parse that raises raises [IndexError],
    [Exception("Syntax error.")] or [UnboundLocalError]: never
    [AttributeError] (a payload is only read off a token that was checked
    to be a literal or a quoted literal) and never [TypeError] (the mark is
    set before every jump to it). *)
Theorem parse_raises_expected_errors (stream : list Token) :
  match parse_tokens stream with
  | Returned (Some _) => True
  | Raised err =>
      err = IndexError \/ err = Exception "Syntax error."
      \/ err = UnboundLocalError
  | _ => False
  end.
Proof.
  unfold parse_tokens, parse. simpl tokens.
  pose proof (proj1 (tidy_expression (2 + List.length stream))
                (new_parser stream)) as Hc.
  pose proof (proj1 (expression_spec (2 + List.length stream))
                (new_parser stream)) as Hs.
  destruct (parse_expression (2 + List.length stream) (new_parser stream))
    as [[d|] s'|err s'|s']; simpl in Hs |- *; auto.
  unfold remaining in Hs. simpl in Hs. lia.
Qed.

(** ** Where a matcher leaves the cursor *)

(** No matcher ever writes the tokens, and none leaves the cursor before
    the position it was entered at, whether it matches, reports no match,
    raises or is cut short. *)
Theorem matchers_never_move_back :
  framed parse_key /\ framed parse_value /\ framed parse_pair
  /\ (forall fuel,
        framed (parse_csv fuel) /\ framed (parse_list fuel)
        /\ framed (parse_block fuel) /\ framed (parse_expression fuel)).
Proof.
  split; [apply framed_parse_key|].
  split; [apply framed_parse_value|].
  split; [apply framed_parse_pair|].
  intro fuel. split; [apply framed_parse_csv|].
  split; [apply framed_parse_list|].
  split; [apply framed_parse_block | apply framed_parse_expression].
Qed.

Lemma csv_loop_mark fuel : forall values s,
  mark (final (csv_loop fuel values s)) = mark s.
Proof.
  induction fuel as [|fuel IH]; intros values s; [reflexivity|].
  simpl. unfold csv_value, bind. run.
  all: match goal with
       | |- context [csv_loop _ ?vs ?st] => rewrite (IH vs st)
       end; reflexivity.
Qed.

Lemma parse_csv_mark fuel s :
  match parse_csv fuel s with
  | Return r s' =>
      mark s' = Some (index s) /\ (r = None -> index s' = index s)
  | _ => True
  end.
Proof.
  unfold parse_csv, csv_value, backtrack_if_none, bind, set_mark. run.
  all: try (split; [reflexivity | reflexivity]).
  all: match goal with
       | |- context [csv_loop ?f ?vs ?st] =>
           pose proof (csv_loop_mark f vs st) as Hm;
           destruct (csv_loop f vs st) as [[r|] s1|err s1|s1];
           cbn in Hm |- *
       end; auto.
  all: try (split; [exact Hm | discriminate]).
  all: unfold jump_to_mark; rewrite Hm; cbn; split;
    [exact Hm | reflexivity].
Qed.

(** Where the cursor is when a matcher made of other wrapped matchers
    reports no match. [parse_csv] puts it back where it was. [parse_pair]
    puts it back when no key was found, and leaves it two tokens further,
    behind the key, when the key matched and the value did not.
    [parse_list] puts it back when the tokens under the cursor are not a
    key, a name literal or none, and [ListStart] (it fails before
    [ListStart] is consumed); when they are, it leaves the cursor right
    after that [ListStart], three or four tokens further. *)
Theorem cursor_after_no_match (fuel : nat) (s : Parser) :
  match parse_csv fuel s with
  | Return None s' => index s' = index s
  | _ => True
  end
  /\ match parse_pair s with
     | Return None s' =>
         match result (parse_key s) with
         | Returned (Some _) => index s' = index s + 2
         | _ => index s' = index s
         end
     | _ => True
     end
  /\ match parse_list fuel s with
     | Return None s' =>
         match list_opening s with
         | Some n =>
             index s' = index s + n
             /\ nth_error (tokens s) (index s' - 1) = Some ListStart
         | None => index s' = index s
         end
     | _ => True
     end.
Proof.
  split; [|split].
  - pose proof (parse_csv_mark fuel s) as H.
    destruct (parse_csv fuel s) as [[r|] s'|err s'|s']; auto.
    apply H. reflexivity.
  - unfold parse_pair, parse_key, parse_value, backtrack_if_none, bind,
      set_mark.
    run; lia.
  - unfold list_opening.
    replace (index s + 2) with (index s + 1 + 1) by lia.
    replace (index s + 3) with (index s + 1 + 1 + 1) by lia.
    unfold parse_list, parse_key, backtrack_if_none, bind, set_mark. run.
    all: match goal with
         | |- context [parse_csv ?f ?st] =>
             pose proof (parse_csv_mark f st) as Hm;
             destruct (parse_csv f st) as [[r|] s1|err s1|s1];
             cbn in Hm |- *; auto;
             destruct Hm as (Hm & Hi)
         end.
    all: try specialize (Hi eq_refl).
    all: run.
    all: try (inversion Hm; subst; clear Hm).
    all: try (split;
      [ lia
      | match goal with
        | E : nth_error _ ?i = Some ListStart |- nth_error _ ?j = _ =>
            replace j with i by lia; exact E
        end ]).
    all: try lia.
Qed.

(** ** A [StreamStart] inside a block *)

(** [parse_expression] skips a leading [StreamStart] wherever it is called,
    so a [StreamStart] right after the [BlockStart] of a named block is
    accepted and left out of the block read. *)
Theorem parse_block_skips_stream_start (k n : string) (toks1 : list Token)
  (d1 : Document) (post : list Token) (fuel : nat) (s : Parser) :
  derives toks1 d1 ->
  suffix s = Literal k :: Value :: Literal n :: BlockStart :: StreamStart
             :: toks1 ++ BlockEnd :: post ->
  remaining s <= fuel ->
  result (parse_block fuel s)
  = Returned (Some (BlockEntry k (if truthy n then Some n else None) d1))
  /\ index (final (parse_block fuel s)) = index s + 6 + List.length toks1.
Proof.
  intros Hd Hs Hf.
  pose proof (suffix_nth0 _ Hs) as E0;
    pose proof (suffix_nth1 _ Hs) as E1;
    pose proof (suffix_nth2 _ Hs) as E2;
    pose proof (suffix_nth3 _ Hs) as E3;
    pose proof (suffix_nth4 _ Hs) as E4.
  pose proof (proj2 (proj2 (expression_spec fuel)) s) as Hb.
  assert (Hout : match parse_block fuel s with
                 | OutOfFuel _ => False
                 | _ => True
                 end).
  { destruct (parse_block fuel s) as [[b|] s'|err s'|s']; auto.
    simpl in Hb. apply nth_error_in_bounds in E0.
    unfold remaining in *. lia. }
  clear Hb. revert Hout.
  destruct fuel as [|fuel]; [intros []|].
  rewrite parse_block_S.
  unfold parse_key, backtrack_if_none, bind, set_mark. run.
  destruct fuel as [|fuel]; [intros []|].
  rewrite parse_expression_S.
  unfold backtrack_if_none, bind, set_mark. run.
  match goal with
  | |- context [expression_loop ?f [] ?st] =>
      pose proof (@loop_complete toks1 d1 Hd f [] st BlockEnd post) as Hr;
      destruct (expression_loop f [] st) as [[r|] s5|e5 s5|s5];
      unfold reads in Hr;
      [ destruct Hr as (-> & Ht5 & Hi5);
        [ apply (@suffix_after s st
                   [Literal k; Value; Literal n; BlockStart; StreamStart]
                   _ Hs);
          [reflexivity | simpl; lia]
        | reflexivity | ]
      | exfalso; apply Hr;
        [ apply (@suffix_after s st
                   [Literal k; Value; Literal n; BlockStart; StreamStart]
                   _ Hs);
          [reflexivity | simpl; lia]
        | reflexivity ]
      | exfalso; apply Hr;
        [ apply (@suffix_after s st
                   [Literal k; Value; Literal n; BlockStart; StreamStart]
                   _ Hs);
          [reflexivity | simpl; lia]
        | reflexivity ]
      | intros [] ]
  end.
  simpl in Ht5, Hi5.
  assert (Hs5 : suffix s5 = BlockEnd :: post)
    by (apply (@suffix_after s s5
                 ([Literal k; Value; Literal n; BlockStart; StreamStart]
                  ++ toks1));
        [ rewrite <- app_assoc; exact Hs
        | exact Ht5
        | rewrite length_app; simpl; lia ]).
  pose proof (suffix_nth0 _ Hs5) as E5. run.
  intros _. simpl. split; [reflexivity | lia].
Qed.

Lemma parse_block_skips_stream_start_example :
  let s :=
    new_parser [Literal "foo"; Value; Literal "baz"; BlockStart;
                StreamStart; Literal "a"; Value; QuotedLiteral "b";
                BlockEnd; StreamEnd] in
  result (parse_block 10 s)
  = Returned (Some (BlockEntry "foo" (if truthy "baz" then Some "baz"%string
                                      else None) [PairEntry "a" "b"]))
  /\ index (final (parse_block 10 s))
     = index s + 6
       + List.length [Literal "a"; Value; QuotedLiteral "b"].
Proof.
  exact (@parse_block_skips_stream_start "foo" "baz" _ _ [StreamEnd] 10
           (new_parser [Literal "foo"; Value; Literal "baz"; BlockStart;
                        StreamStart; Literal "a"; Value; QuotedLiteral "b";
                        BlockEnd; StreamEnd])
           (derives_pair "a" (value_quoted "b") derives_nil)
           eq_refl (le_n 10)).
Defined.

(** ** The primitives in full: [peek] with a length, [check] on any class *)

(** [peek] with a length above one never raises and does not move the
    cursor: it returns the tokens from the cursor on, as many as asked for
    or as many as are left, none at or past the end of the stream, where
    [peek] with the default length raises [IndexError]. *)
Theorem peek_length_slice (length : Z) (s : Parser) :
  (1 < length)%Z ->
  exists r,
    peek_length length s = Return (inr r) s
    /\ List.length r = Nat.min (Z.to_nat length) (remaining s)
    /\ (forall j, j < Z.to_nat length ->
                  nth_error r j = nth_error (tokens s) (index s + j))
    /\ (List.length (tokens s) <= index s ->
        r = [] /\ peek_length 1 s = Raise IndexError s).
Proof.
  intro H. unfold peek_length.
  destruct (1 <? length)%Z eqn:E; [|apply Z.ltb_ge in E; lia].
  eexists. split; [reflexivity|]. split; [|split].
  - rewrite length_firstn, length_skipn. reflexivity.
  - intros j Hj. rewrite nth_error_firstn.
    destruct (Nat.ltb_spec j (Z.to_nat length)); [|lia].
    apply nth_error_skipn.
  - intro Hs. split.
    + rewrite skipn_all2 by exact Hs. apply firstn_nil.
    + simpl. unfold peek. apply nth_error_None in Hs. rewrite Hs.
      reflexivity.
Qed.

Lemma peek_length_slice_example :
  exists r,
    peek_length 2 (new_parser foo_open_block)
    = Return (inr r) (new_parser foo_open_block)
    /\ List.length r
       = Nat.min (Z.to_nat 2) (remaining (new_parser foo_open_block))
    /\ (forall j, j < Z.to_nat 2 ->
                  nth_error r j
                  = nth_error (tokens (new_parser foo_open_block))
                      (index (new_parser foo_open_block) + j))
    /\ (List.length (tokens (new_parser foo_open_block))
        <= index (new_parser foo_open_block) ->
        r = []
        /\ peek_length 1 (new_parser foo_open_block)
           = Raise IndexError (new_parser foo_open_block)).
Proof.
  exact (@peek_length_slice 2 (new_parser foo_open_block) eq_refl).
Defined.

(** [check] on any classes: called on token classes, as the parser does, it
    is the test on the exact type of the token under the cursor; past the
    end of the stream it raises [IndexError] whatever the classes; in
    bounds it raises [TypeError] as soon as one class is no subclass of
    [Token]. The cursor is never moved. *)
Theorem check_on_any_class (token_types : list PyClass) (s : Parser) :
  (forall tys, check_classes (List.map TokenSubclass tys) s = check tys s)
  /\ final (check_classes token_types s) = s
  /\ (List.length (tokens s) <= index s ->
      check_classes token_types s = Raise IndexError s)
  /\ (index s < List.length (tokens s) ->
      forallb issubclass_Token token_types = false ->
      check_classes token_types s = Raise TypeError s).
Proof.
  unfold check_classes, check, bind, peek.
  split; [|split; [|split]].
  - intro tys.
    destruct (nth_error (tokens s) (index s)) as [t|]; [|reflexivity].
    replace (forallb issubclass_Token (List.map TokenSubclass tys))
      with true
      by (symmetry; apply forallb_forall; intros c Hc;
          apply in_map_iff in Hc; destruct Hc as (ty & <- & _); reflexivity).
    unfold ret. f_equal.
    induction tys as [|ty tys IH]; simpl; [reflexivity|].
    rewrite IH. reflexivity.
  - destruct (nth_error (tokens s) (index s)) as [t|]; [|reflexivity].
    destruct (forallb issubclass_Token token_types); reflexivity.
  - intro H. apply nth_error_None in H. rewrite H. reflexivity.
  - intro H. destruct (nth_error (tokens s) (index s)) as [t|] eqn:E.
    + intros ->. reflexivity.
    + apply nth_error_None in E. lia.
Qed.

(** ** What the parser accepts *)

Lemma skipn_nth (l : list Token) : forall i t,
  nth_error l i = Some t -> skipn i l = t :: skipn (i + 1) l.
Proof.
  induction l as [|a l IH]; intros [|i] t H; simpl in *; try discriminate.
  - inversion H. reflexivity.
  - apply IH. exact H.
Qed.

Lemma derives_app t1 d1 :
  derives t1 d1 ->
  forall t2 d2, derives t2 d2 -> derives (t1 ++ t2) (d1 ++ d2).
Proof.
  induction 1 as [|k vt v toks d Hv Hd IH|k n toks1 d1 toks d Hd1 IH1 Hd IH
                 |k n toks1 d1 toks d Hd1 IH1 Hd IH];
    intros t2 d2 H2; simpl.
  - exact H2.
  - rewrite <- app_assoc. apply derives_pair; auto.
  - rewrite <- app_assoc. simpl. apply derives_block; auto.
  - rewrite <- app_assoc. simpl. apply derives_block_start; auto.
Qed.

Lemma span_trans s s1 s2 t1 t2 :
  span s s1 t1 -> span s1 s2 t2 -> span s s2 (t1 ++ t2).
Proof.
  intros (Ht1 & H1) (Ht2 & H2). split; [congruence|].
  rewrite H1, <- app_assoc. f_equal. rewrite <- Ht1. rewrite H2.
  reflexivity.
Qed.

Ltac unroll :=
  repeat match goal with
    | E : nth_error ?l ?i = Some ?t |- context [skipn ?i ?l] =>
        rewrite (@skipn_nth l i t E)
    end.

Ltac spans :=
  unfold span; cbn; split; [reflexivity|]; unroll; reflexivity.

Ltac off_key :=
  let k := fresh "k" in
  let K0 := fresh "K" in
  let K1 := fresh "K" in
  intros k (K0 & K1); cbn in *; congruence.

Lemma sound_parse_pair s :
  match parse_pair s with
  | Return (Some p) s' =>
      (exists toks, derives toks [p] /\ span s s' toks) /\ settled s'
  | _ => True
  end.
Proof.
  unfold parse_pair, parse_key, parse_value, backtrack_if_none, bind,
    set_mark.
  run.
  all: match goal with
       | |- (exists toks, derives toks [PairEntry ?k ?v] /\ _) /\ _ =>
           split;
           [ first
               [ exists (Literal k :: Value :: [QuotedLiteral v] ++ []);
                 split; [apply derives_pair; constructor | spans]
               | exists (Literal k :: Value :: [Literal v] ++ []);
                 split; [apply derives_pair; constructor | spans]
               | exists (Literal k :: Value :: [Literal v; SqlEnd] ++ []);
                 split; [apply derives_pair; constructor | spans] ]
           | eexists; split; [reflexivity|];
             first [ left; off_key
                   | right; left; cbn; lia
                   | right; right; cbn; lia ] ]
       end.
Qed.

Arguments sound_loop : simpl never.

Lemma sound_loop_step acc e s s1 toks1 o :
  sound_loop (acc ++ [e]) s1 o ->
  derives toks1 [e] ->
  span s s1 toks1 ->
  sound_loop acc s o.
Proof.
  unfold sound_loop. destruct o as [[r|] s'|err s'|s']; auto.
  intros ((d & toks & -> & Hd & Hsp) & Hm) He Hs1. split; [|exact Hm].
  exists (e :: d), (toks1 ++ toks). split; [|split].
  - rewrite <- app_assoc. reflexivity.
  - apply (derives_app He Hd).
  - eapply span_trans; eassumption.
Qed.

Lemma sound_loop_S fuel :
  (forall s, sound_block s (parse_block fuel s)) ->
  (forall acc s, settled s -> sound_loop acc s (expression_loop fuel acc s)) ->
  forall acc s, settled s ->
                sound_loop acc s (expression_loop (S fuel) acc s).
Proof.
  intros IHb IHl acc s (m & Hm & Hset).
  rewrite expression_loop_S. unfold bind. step.
  destruct (nth_error (tokens s) (index s)) as [t|] eqn:E; [|exact I].
  destruct (existsb (TokenType_eqb (type_of t))
              [StreamEndToken; BlockEndToken]) eqn:Eb.
  { unfold sound_loop. simpl. split.
    - exists [], []. split; [symmetry; apply app_nil_r|].
      split; [constructor | split; reflexivity].
    - exists m. split; [exact Hm|]. intros k (K0 & K1).
      destruct Hset as [Hn|[Hq|Hq]].
      + apply (Hn k). split; assumption.
      + rewrite Hq, E in K1. inversion K1; subst. discriminate.
      + rewrite Hq, E in K0. inversion K0; subst. discriminate. }
  pose proof (IHb s) as Hb.
  destruct (parse_block fuel s) as [[b|] s1|err s1|s1]; simpl in Hb;
    try exact I.
  - destruct Hb as ((toks1 & Hd1 & Hs1) & (m1 & Hm1 & Hn1)).
    eapply sound_loop_step; [apply IHl | exact Hd1 | exact Hs1].
    exists m1. split; [exact Hm1 | left; exact Hn1].
  - destruct Hb as (Ht1 & Hi1).
    pose proof (sound_parse_pair s1) as Hp.
    pose proof (parse_pair_spec s1) as Hk.
    pose proof (parse_list_after_failed_pair fuel s1) as Hnl.
    destruct (parse_pair s1) as [[p|] s2|err s2|s2]; try exact I.
    + destruct Hp as ((toks1 & Hd1 & Hs1) & Hset2).
      destruct Hk as (k & v & _ & Hk & _).
      assert (Hi : index s1 = index s).
      { destruct Hi1 as [Hi1|Hi1]; [exact Hi1|].
        exfalso. apply (Hi1 k). rewrite <- Ht1. exact Hk. }
      eapply sound_loop_step; [apply IHl; exact Hset2 | exact Hd1 |].
      destruct Hs1 as (Ht2 & Hs1). split; [congruence|].
      rewrite <- Ht1, <- Hi. exact Hs1.
    + destruct (parse_list fuel s2) as [[l|] s3|err s3|s3];
        [contradiction | exact I | exact I | exact I].
Qed.

Lemma sound_expression_S fuel :
  (forall acc s, settled s -> sound_loop acc s (expression_loop fuel acc s)) ->
  forall s, sound_expression s (parse_expression (S fuel) s).
Proof.
  intros IHl s. rewrite parse_expression_S.
  unfold backtrack_if_none, bind, set_mark. run.
  all: match goal with
       | |- context [expression_loop ?f [] ?st] =>
           assert (Hl : sound_loop [] st (expression_loop f [] st))
             by (apply IHl; eexists; split; [reflexivity|];
                 first [right; left; cbn; lia | right; right; cbn; lia]);
           destruct (expression_loop f [] st) as [[r|] s'|err s'|s'];
           unfold sound_loop in Hl; run
       end.
  all: destruct Hl as ((d & toks & -> & Hd & Ht & Hs) & Hm);
    cbn in Ht, Hs; split; [|exact Hm]; exists toks;
    (split; [exact Hd|]).
  all: first
         [ left; split; [exact Ht | exact Hs]
         | right; split; [exact Ht|]; cbn; unroll; rewrite Hs;
           reflexivity ].
Qed.

Lemma sound_block_S fuel :
  (forall s, sound_expression s (parse_expression fuel s)) ->
  forall s, sound_block s (parse_block (S fuel) s).
Proof.
  intros IHe s. rewrite parse_block_S.
  unfold parse_key, backtrack_if_none, bind, set_mark. run.
  all: try (split; [reflexivity | left; reflexivity]).
  all: match goal with
       | |- context [parse_expression ?f ?st] =>
           pose proof (IHe st) as He;
           pose proof (proj1 (expression_spec f) st) as Hx;
           destruct (parse_expression f st) as [[r|] s5|err s5|s5];
           unfold sound_expression in He; cbn in He, Hx;
           try contradiction; try exact I; clear Hx
       end.
  all: destruct He as ((toks1 & Hd1 & Hsp) & (m5 & Hm5 & Hn5)).
  all: assert (Ht5 : tokens s5 = tokens s)
    by (destruct Hsp as [(Ht & _)|(Ht & _)]; exact Ht).
  all: runm.
  all: rewrite ?Ht5 in *.
  all: try exact I.
  all: try (split; [reflexivity | right; exact Hn5]).
  all: split;
    [|exists m5; cbn; rewrite ?Ht5; split; assumption].
  all: destruct Hsp as [(_ & Hs)|(_ & Hs)]; cbn in Hs.
  all: match goal with
       | |- exists toks,
              derives toks [BlockEntry ?k (if truthy ?n then _ else _) ?r]
              /\ _ =>
           first
             [ exists (Literal k :: Value :: Literal n :: BlockStart
                       :: toks1 ++ BlockEnd :: []);
               split;
               [ apply (derives_block k n Hd1 derives_nil)
               | split; [cbn; exact Ht5|]; cbn; unroll;
                 rewrite Hs; unroll; rewrite <- app_assoc;
                 reflexivity ]
             | exists (Literal k :: Value :: Literal n :: BlockStart
                       :: StreamStart :: toks1 ++ BlockEnd :: []);
               split;
               [ apply (derives_block_start k n Hd1 derives_nil)
               | split; [cbn; exact Ht5|]; cbn; unroll;
                 rewrite Hs; unroll; rewrite <- app_assoc;
                 reflexivity ] ]
       end.
Qed.

Lemma sound_spec fuel :
  (forall s, sound_expression s (parse_expression fuel s))
  /\ (forall acc s, settled s ->
                    sound_loop acc s (expression_loop fuel acc s))
  /\ (forall s, sound_block s (parse_block fuel s)).
Proof.
  induction fuel as [|fuel (IHe & IHl & IHb)].
  - split; [|split]; intros; exact I.
  - split; [|split].
    + apply sound_expression_S. exact IHl.
    + apply sound_loop_S; assumption.
    + apply sound_block_S. exact IHe.
Qed.

Lemma parse_expression_ends_on_terminator fuel s d s' :
  parse_expression fuel s = Return (Some d) s' ->
  nth_error (tokens s') (index s') = Some StreamEnd
  \/ nth_error (tokens s') (index s') = Some BlockEnd.
Proof.
  destruct fuel as [|fuel]; [discriminate|].
  rewrite parse_expression_S. unfold backtrack_if_none. intro H.
  apply bind_Return in H. destruct H as ([] & s0 & _ & H).
  apply bind_Return in H. destruct H as ([r|] & s1 & Hb & H).
  - inversion H; subst.
    apply bind_Return in Hb. destruct Hb as (b & s2 & _ & Hb).
    apply bind_Return in Hb. destruct Hb as ([] & s3 & _ & Hb).
    eapply expression_loop_ends_on_terminator; exact Hb.
  - apply bind_Return in H. destruct H as ([] & s2 & _ & H).
    discriminate.
Qed.

(** Whenever the top-level parse returns a document, the stream is, after
    an optional leading [StreamStart], a token sequence of the grammar of
    pairs and named blocks that stands for that document, followed by a
    [StreamEnd] or [BlockEnd] token and anything at all: the parser
    accepts nothing else. *)
Theorem parse_sound (stream : list Token) (d : Document) :
  parse_tokens stream = Returned (Some d) ->
  exists toks t rest,
    derives toks d
    /\ ends_expression t = true
    /\ (stream = toks ++ t :: rest
        \/ stream = StreamStart :: toks ++ t :: rest).
Proof.
  unfold parse_tokens, parse. simpl tokens. intro H.
  pose proof (proj1 (sound_spec (2 + List.length stream))
                (new_parser stream)) as Hs.
  destruct (parse_expression (2 + List.length stream) (new_parser stream))
    as [[r|] s'|e s'|s'] eqn:Ep; try discriminate.
  inversion H; subst r. clear H.
  destruct Hs as ((toks & Hd & Hsp) & _).
  apply parse_expression_ends_on_terminator in Ep.
  assert (Ht : exists t, nth_error (tokens s') (index s') = Some t
                         /\ ends_expression t = true)
    by (destruct Ep as [E|E]; eexists; split; try exact E; reflexivity).
  destruct Ht as (t & Et & Hend).
  exists toks, t, (skipn (index s' + 1) stream).
  split; [exact Hd|]. split; [exact Hend|].
  destruct Hsp as [(Hts & Hsk)|(Hts & Hsk)]; simpl in Hts, Hsk;
    rewrite Hts in Et; rewrite (skipn_nth _ _ Et) in Hsk;
    [left | right]; exact Hsk.
Qed.

Lemma parse_sound_foo_bar :
  exists toks t rest,
    derives toks [PairEntry "foo" "bar"]
    /\ ends_expression t = true
    /\ ([StreamStart; Literal "foo"; Value; Literal "bar"; SqlEnd;
         StreamEnd]%string = toks ++ t :: rest
        \/ [StreamStart; Literal "foo"; Value; Literal "bar"; SqlEnd;
            StreamEnd]%string = StreamStart :: toks ++ t :: rest).
Proof.
  exact (@parse_sound
           [StreamStart; Literal "foo"; Value; Literal "bar"; SqlEnd;
            StreamEnd]%string
           [PairEntry "foo" "bar"]%string eq_refl).
Defined.

(** ** What the list matcher accepts *)

Lemma csv_loop_sound fuel : forall values s vs s',
  csv_loop fuel values s = Return (Some vs) s' ->
  exists cs,
    vs = values ++ List.map snd cs
    /\ span s s' (csv_tail cs)
    /\ nth_error (tokens s') (index s') = Some ListEnd.
Proof.
  induction fuel as [|fuel IH]; intros values s vs s'; [discriminate|].
  simpl. unfold csv_value, bind. run; try discriminate.
  all: try (intro H; inversion H; subst; clear H; exists [];
            rewrite app_nil_r;
            split; [reflexivity|]; split; [split; reflexivity | assumption]).
  all: intro H; apply IH in H; destruct H as (cs & -> & (Ht & Hs) & He);
    cbn in Ht, Hs.
  all: match goal with
       | E : nth_error _ (_ + 1) = Some (Literal ?v) |- _ =>
           exists ((false, v) :: cs)
       | E : nth_error _ (_ + 1) = Some (QuotedLiteral ?v) |- _ =>
           exists ((true, v) :: cs)
       end.
  all: rewrite <- app_assoc; split; [reflexivity|]; split; [|exact He].
  all: split; [exact Ht|]; cbn; unroll; rewrite Hs; reflexivity.
Qed.

Lemma parse_csv_sound fuel s vs s' :
  parse_csv fuel s = Return (Some vs) s' ->
  exists c cs,
    vs = List.map snd (c :: cs)
    /\ span s s' (content_token c :: csv_tail cs)
    /\ nth_error (tokens s') (index s') = Some ListEnd.
Proof.
  unfold parse_csv, backtrack_if_none, csv_value, bind, set_mark.
  run; try discriminate.
  all: match goal with
       | |- context [csv_loop ?f ?vs ?st] =>
           destruct (csv_loop f vs st) as [[r|] s1|err s1|s1] eqn:El
       end; run; try discriminate.
  all: intro H; inversion H; subst; clear H.
  all: apply csv_loop_sound in El;
    destruct El as (cs & -> & (Ht & Hs) & He); cbn in Ht, Hs.
  all: match goal with
       | E : nth_error _ _ = Some (Literal ?v) |- _ =>
           exists (false, v), cs
       | E : nth_error _ _ = Some (QuotedLiteral ?v) |- _ =>
           exists (true, v), cs
       end.
  all: split; [reflexivity|]; split; [|exact He].
  all: split; [exact Ht|]; cbn; unroll; rewrite Hs; reflexivity.
Qed.

(** A List entry that [parse_list] returns was read from the tokens of a
    list: a key, a name literal or none, [ListStart], one element or more
    separated by commas, and [ListEnd] as the last token consumed; its
    values are the payloads of the elements in their order. *)
Theorem parse_list_sound (fuel : nat) (s s' : Parser) (e : Entry) :
  parse_list fuel s = Return (Some e) s' ->
  exists k name c cs,
    e = ListEntry k (List.map snd (c :: cs))
    /\ span s s' (list_tokens k name c cs).
Proof.
  unfold parse_list, parse_key, backtrack_if_none, bind, set_mark.
  run; try discriminate.
  all: match goal with
       | |- context [parse_csv ?f ?st] =>
           destruct (parse_csv f st) as [[r|] s1|err s1|s1] eqn:Ec
       end; run; try discriminate.
  all: apply parse_csv_sound in Ec;
    destruct Ec as (c & cs & -> & (Ht & Hs) & He); cbn in Ht, Hs.
  all: rewrite Ht in He; run; try discriminate.
  all: intro H; inversion H; subst; clear H.
  all: match goal with
       | |- exists k name c cs, ListEntry ?key _ = _ /\ _ =>
           first
             [ exists key, None, c, cs; split; [reflexivity|];
               split; [cbn; exact Ht|]; unfold list_tokens; cbn; unroll;
               rewrite Hs; rewrite <- app_assoc; cbn; unroll; reflexivity
             | match goal with
               | E : nth_error _ (_ + 1 + 1) = Some (Literal ?n) |- _ =>
                   exists key, (Some n), c, cs; split; [reflexivity|];
                   split; [cbn; exact Ht|]; unfold list_tokens; cbn;
                   unroll; rewrite Hs; rewrite <- app_assoc; cbn; unroll;
                   reflexivity
               end ]
       end.
Qed.

Lemma parse_list_sound_foo_list :
  exists k name c cs,
    ListEntry "foo" ["1"; "2"; "three"]%string
    = ListEntry k (List.map snd (c :: cs))
    /\ span (new_parser foo_list) (final (parse_list 5 (new_parser foo_list)))
         (list_tokens k name c cs).
Proof.
  exact (@parse_list_sound 5 (new_parser foo_list) _ _ eq_refl).
Defined.

(** * The order of the entries *)

Lemma nth_error_behind (pre l : list Token) j :
  nth_error (pre ++ l) (List.length pre + j) = nth_error l j.
Proof. induction pre as [|a pre IH]; simpl; auto. Qed.

Lemma derives_first toks d t post :
  derives toks d -> ends_expression t = true ->
  nth_error (toks ++ t :: post) 0 <> Some Value.
Proof.
  intros H Ht. destruct (@derives_next toks d t post H Ht) as (nxt & r & -> & Hn).
  simpl. intro E. inversion E; subst.
  destruct Hn as [Hn|(k & Hn)]; discriminate.
Qed.

Lemma key_at_behind (pre l : list Token) j k :
  key_at (pre ++ l) (List.length pre + j) k <-> key_at l j k.
Proof.
  unfold key_at. rewrite <- Nat.add_assoc, !nth_error_behind. reflexivity.
Qed.

Lemma entry_at_behind (pre l : list Token) j e :
  entry_at (pre ++ l) (List.length pre + j) e <-> entry_at l j e.
Proof.
  destruct e; unfold entry_at, key_at;
    rewrite <- !Nat.add_assoc, !nth_error_behind; reflexivity.
Qed.

Lemma entry_at_here (pre l : list Token) e :
  entry_at l 0 e -> entry_at (pre ++ l) (List.length pre) e.
Proof.
  intro H. replace (List.length pre) with (List.length pre + 0) by lia.
  apply entry_at_behind. exact H.
Qed.

Lemma nth_error_at (pre l : list Token) j p :
  p = List.length pre + j -> nth_error (pre ++ l) p = nth_error l j.
Proof. intros ->. apply nth_error_behind. Qed.

(** The case of a block in [derives_placed]; [hd] is what a block opens
    with, up to and including [BlockStart] and the [StreamStart] that may
    follow it. *)
Ltac placed_block hd :=
  match goal with
  | IH1 : forall pre t post, _ ->
          exists ps, Forall2 _ ps (document_entries ?d1) /\ _,
    IH : forall pre t post, _ ->
         exists ps, Forall2 _ ps (document_entries ?d) /\ _,
    Ht : ends_expression ?t = true
    |- exists ps,
         Forall2 (entry_at (?pre ++ (?full) ++ ?t :: ?post)) ps _ /\ _ =>
      match full with
      | context [?toks1 ++ BlockEnd :: ?toks] =>
          destruct (IH1 (pre ++ hd) BlockEnd (toks ++ t :: post) eq_refl)
            as (ps1 & F1 & S1 & B1 & C1);
          destruct (IH (pre ++ hd ++ toks1 ++ [BlockEnd]) t post Ht)
            as (ps2 & F2 & S2 & B2 & C2);
          assert (Hts1 : (pre ++ hd) ++ toks1 ++ BlockEnd :: toks ++ t :: post
                         = pre ++ full ++ t :: post)
            by (repeat (rewrite <- app_assoc; simpl); reflexivity);
          assert (Hts2 : (pre ++ hd ++ toks1 ++ [BlockEnd])
                           ++ toks ++ t :: post
                         = pre ++ full ++ t :: post)
            by (repeat (rewrite <- app_assoc; simpl); reflexivity);
          rewrite Hts1 in F1, C1; rewrite Hts2 in F2, C2;
          clear Hts1 Hts2 IH1 IH;
          repeat (rewrite length_app in B1; simpl List.length in B1);
          repeat (rewrite length_app in C1; simpl List.length in C1);
          repeat (rewrite length_app in B2; simpl List.length in B2);
          repeat (rewrite length_app in C2; simpl List.length in C2);
          exists (List.length pre :: ps1 ++ ps2);
          split; [|split; [|split]]
      end
  end.

Ltac placed_entry n :=
  unfold document_entries; simpl;
  constructor; [|apply Forall2_app; assumption];
  apply entry_at_here; unfold entry_at, key_at; simpl;
  split; [split; reflexivity|]; exists n; repeat split.

Ltac placed_bound B := eapply Forall_impl; [|exact B]; simpl; intros; lia.

Ltac placed_sorted m S1 S2 B1 B2 :=
  constructor;
  [ apply (@StronglySorted_lt_app _ _ m);
    [exact S1 | exact S2 | placed_bound B1 | placed_bound B2]
  | apply Forall_app; split; [placed_bound B1 | placed_bound B2] ].

Ltac placed_within B1 B2 :=
  simpl List.length; rewrite length_app; simpl List.length;
  constructor; [lia|];
  apply Forall_app; split; [placed_bound B1 | placed_bound B2].

Ltac placed_all hd c pre toks1 toks t post C1 C2 :=
  let p := fresh "p" in
  let k0 := fresh "k0" in
  let Hp := fresh "Hp" in
  let K := fresh "K" in
  let K0 := fresh "K0" in
  let K1 := fresh "K1" in
  let j := fresh "j" in
  let Hj := fresh "Hj" in
  let L := fresh "L" in
  let L' := fresh "L'" in
  intros p k0 Hp K;
  simpl List.length in Hp; rewrite length_app in Hp;
  simpl List.length in Hp;
  assert (Hj : exists j, p = List.length pre + j)
    by (exists (p - List.length pre); lia);
  destruct Hj as (j & ->);
  destruct (Nat.lt_ge_cases j c) as [L|L];
  [ pose proof (proj1 (key_at_behind _ _ _ _) K) as (K0 & K1);
    destruct j as [|[|[|[|[|j]]]]]; simpl in K0, K1;
    first [left; lia | discriminate K0 | discriminate K1 | lia]
  | destruct (Nat.lt_trichotomy j (c + List.length toks1))
      as [L'|[L'|L']];
    [ right; apply in_or_app; left; apply (C1 _ k0); [lia | exact K]
    | exfalso; destruct K as (K0 & _);
      match type of K0 with
      | nth_error ?ts _ = _ =>
          replace ts
            with ((pre ++ hd ++ toks1) ++ BlockEnd :: toks ++ t :: post)
            in K0
            by (repeat (rewrite <- app_assoc; simpl); reflexivity)
      end;
      rewrite (@nth_error_at (pre ++ hd ++ toks1) _ 0) in K0
        by (rewrite !length_app; simpl; lia);
      discriminate K0
    | right; apply in_or_app; right; apply (C2 _ k0); [lia | exact K] ] ].

Lemma derives_placed toks d :
  derives toks d ->
  forall pre t post,
    ends_expression t = true ->
    exists ps,
      Forall2 (entry_at (pre ++ toks ++ t :: post)) ps (document_entries d)
      /\ StronglySorted lt ps
      /\ Forall (fun p => List.length pre <= p
                          < List.length pre + List.length toks) ps
      /\ (forall p k,
            List.length pre <= p < List.length pre + List.length toks ->
            key_at (pre ++ toks ++ t :: post) p k -> In p ps).
Proof.
  induction 1 as [|k vt v toks d Hv Hd IH
                 |k n toks1 d1 toks d Hd1 IH1 Hd IH
                 |k n toks1 d1 toks d Hd1 IH1 Hd IH];
    intros pre t post Ht.
  - exists []. split; [constructor|]. split; [constructor|].
    split; [constructor|]. intros p k Hp. simpl in Hp. lia.
  - destruct (IH (pre ++ Literal k :: Value :: vt) t post Ht)
      as (ps & F & S & B & C).
    assert (Hts : (pre ++ Literal k :: Value :: vt) ++ toks ++ t :: post
                  = pre ++ (Literal k :: Value :: vt ++ toks) ++ t :: post)
      by (rewrite <- !app_assoc; simpl; rewrite <- !app_assoc;
          reflexivity).
    rewrite Hts in F, C. rewrite length_app in B, C.
    pose proof (@derives_first toks d t post Hd Ht) as Hfirst.
    exists (List.length pre :: ps). split; [|split; [|split]].
    + simpl. constructor; [|exact F].
      apply entry_at_here. destruct Hv; simpl; unfold key_at; simpl; auto.
    + constructor; [exact S|].
      eapply Forall_impl; [|exact B]. simpl. intros a Ha. lia.
    + constructor; [simpl; lia|].
      eapply Forall_impl; [|exact B]. simpl. intros a Ha.
      rewrite length_app. simpl in *. lia.
    + intros p k0 Hp K.
      assert (Hj : exists j, p = List.length pre + j)
        by (exists (p - List.length pre); lia).
      destruct Hj as (j & ->).
      pose proof (proj1 (key_at_behind _ _ _ _) K) as (K0 & K1).
      destruct Hv; simpl in Hp, C, K0, K1.
      all: destruct j as [|[|[|[|j]]]]; simpl in K0, K1.
      all: first
             [ left; lia
             | discriminate K0
             | discriminate K1
             | exfalso; apply Hfirst; exact K1
             | right; apply (C _ k0); [simpl; lia | exact K] ].
  - placed_block [Literal k; Value; Literal n; BlockStart].
    + placed_entry n.
    + placed_sorted (List.length pre + 4 + List.length toks1) S1 S2 B1 B2.
    + placed_within B1 B2.
    + placed_all [Literal k; Value; Literal n; BlockStart] 4
        pre toks1 toks t post C1 C2.
  - placed_block [Literal k; Value; Literal n; BlockStart; StreamStart].
    + placed_entry n.
    + placed_sorted (List.length pre + 5 + List.length toks1) S1 S2 B1 B2.
    + placed_within B1 B2.
    + placed_all [Literal k; Value; Literal n; BlockStart; StreamStart] 5
        pre toks1 toks t post C1 C2.
Qed.

Lemma Forall2_In_left A B (R : A -> B -> Prop) l l' x :
  Forall2 R l l' -> In x l -> exists y, In y l' /\ R x y.
Proof.
  induction 1 as [|a b l l' Hab HF IH]; intros Hin; [destruct Hin|].
  destruct Hin as [<-|Hin].
  - exists b. split; [left; reflexivity | exact Hab].
  - destruct (IH Hin) as (y & Hy & HR). exists y.
    split; [right; exact Hy | exact HR].
Qed.

Lemma entry_at_key ts p e : entry_at ts p e -> exists k, key_at ts p k.
Proof. destruct e; simpl; intros (H & _); eauto. Qed.

(** C7. When the top-level parse returns a document, its entries, taken in
    document order with those of nested documents in their place, were
    read off strictly increasing positions of the token stream, each off a
    key occurrence of its own and with the value or the name found behind
    that occurrence; and these positions are all the key occurrences of
    the part of the stream that was read. So the entries come in the order
    of their keys in the stream, and every occurrence of a key gives one
    entry: a key that occurs twice gives two entries, each with its own
    value, none dropped or merged. *)
Theorem document_order (stream : list Token) (d : Document) :
  parse_tokens stream = Returned (Some d) ->
  exists ps,
    Forall2 (entry_at stream) ps (document_entries d)
    /\ StronglySorted lt ps
    /\ (forall p,
          In p ps
          <-> p < index (final (parse (new_parser stream)))
              /\ exists k, key_at stream p k).
Proof.
  unfold parse_tokens, parse. simpl tokens. intro H.
  pose proof (proj1 (sound_spec (2 + List.length stream))
                (new_parser stream)) as Hs.
  destruct (parse_expression (2 + List.length stream) (new_parser stream))
    as [[r|] s'|e s'|s'] eqn:Ep; try discriminate.
  inversion H; subst r. clear H.
  destruct Hs as ((toks & Hd & Hsp) & _).
  apply parse_expression_ends_on_terminator in Ep.
  assert (Ht : exists t, nth_error (tokens s') (index s') = Some t
                         /\ ends_expression t = true)
    by (destruct Ep as [E|E]; eexists; split; try exact E; reflexivity).
  destruct Ht as (t & Et & Hend). simpl final.
  assert (Hpre : exists pre,
             (pre = [] \/ pre = [StreamStart])
             /\ stream
                = pre ++ toks ++ t :: skipn (index s' + 1) stream).
  { destruct Hsp as [(Hts & Hsk)|(Hts & Hsk)]; simpl in Hts, Hsk;
      rewrite Hts in Et; rewrite (skipn_nth _ _ Et) in Hsk.
    - exists []. split; [left; reflexivity | exact Hsk].
    - exists [StreamStart]. split; [right; reflexivity | exact Hsk]. }
  destruct Hpre as (pre & Hpre & Hst).
  assert (Hts : tokens s' = stream)
    by (destruct Hsp as [(Hts & _)|(Hts & _)]; exact Hts).
  rewrite Hts in Et.
  assert (Hi : index s' = List.length pre + List.length toks).
  { pose proof (nth_error_in_bounds _ _ Et) as Hb.
    pose proof (f_equal (@List.length Token) Hst) as Hl.
    rewrite !length_app in Hl. simpl in Hl. rewrite length_skipn in Hl.
    lia. }
  destruct (@derives_placed toks d Hd pre t (skipn (index s' + 1) stream)
              Hend)
    as (ps & F & S & B & C).
  rewrite <- Hst in F, C. rewrite <- Hi in B, C.
  exists ps. split; [exact F|]. split; [exact S|].
  intro p. split.
  - intro Hin. split.
    + rewrite Forall_forall in B. apply B in Hin. lia.
    + destruct (@Forall2_In_left _ _ _ _ _ p F Hin) as (e & _ & He).
      exact (@entry_at_key _ _ _ He).
  - intros (Hp & k & K).
    destruct (Nat.lt_ge_cases p (List.length pre)) as [L|L].
    + exfalso. destruct Hpre as [->| ->]; simpl in L; [lia|].
      assert (p = 0) by lia. subst p.
      destruct K as (K0 & _). rewrite Hst in K0. discriminate K0.
    + apply (C p k); [lia | exact K].
Qed.

Lemma document_order_repeated_keys :
  parse_tokens repeated_keys
  = Returned (Some [PairEntry "a" "b"; PairEntry "a" "c"])
  /\ exists ps,
      Forall2 (entry_at repeated_keys) ps
        [PairEntry "a" "b"; PairEntry "a" "c"]%string
      /\ StronglySorted lt ps
      /\ (forall p,
            In p ps
            <-> p < index (final (parse (new_parser repeated_keys)))
                /\ exists k, key_at repeated_keys p k).
Proof.
  split; [reflexivity|].
  exact (@document_order repeated_keys
           [PairEntry "a" "b"; PairEntry "a" "c"] eq_refl).
Defined.
